(** * libuinet [bin/passive/passive.c]: a shallow embedding and its properties

    The program intercepts TCP flows passively.  Each accepted flow yields two
    sockets (the server side and its passive peer); a read handler drains each
    socket, counts the bytes and, when verbose, prints them through a small
    noise-suppressing renderer.  The embedding follows the C source function by
    function:

    - [Renderer]: the printing loop of [passive_receive_cb] (lines 161-189);
    - [ReadHandler]: [passive_receive_cb] as a whole;
    - [Acceptor]: [accept_cb], including the label formatting;
    - [Listener]: [create_passive];
    - [Startup]: the validation and provisioning loops of [main]. *)

From Stdlib Require Import ZArith Lia Ascii String DecimalString.
From Stdlib Require DecimalNat DecimalFacts.
From stdpp Require Import gmap strings list fin_maps.

Local Open Scope nat_scope.

(** ** The diagnostic renderer *)

Module Renderer.

(** [uint8_t buffer[BUFFER_SIZE]] is a list of bytes; a byte's numeric value is
    what the C comparisons see. *)
Definition byte_val (b : ascii) : Z := Z.of_N (N_of_ascii b).

Definition NUL : ascii := Ascii.zero.

Definition print_threshold : nat := 10.

(** Line 164: the printable test. *)
Definition is_printable (b : ascii) : bool :=
  let v := byte_val b in
  (((0x20 <=? v)%Z && (v <=? 0x7e)%Z) || (v =? 0x0a)%Z || (v =? 0x0d)%Z
   || (v =? 0x09)%Z)%bool.

(** What the loop writes to standard output: a [printf("<%u>", skipped)] or a
    [printf("%s", &buffer[...])]. *)
Inductive token : Type :=
  | Marker (n : nat)
  | Text (s : list ascii).

(** [printf("%s", p)]: the bytes from [p] up to the first NUL. *)
Fixpoint until_nul (l : list ascii) : list ascii :=
  match l with
  | [] => []
  | c :: l' => if Ascii.eqb c NUL then [] else c :: until_nul l'
  end.

Definition cstr (buffer : list ascii) (off : nat) : list ascii :=
  until_nul (drop off buffer).

(** The loop's variables.  [printable] and [skipped] are C [int]s; they never
    exceed the loop index (lemma [render_counters_bounded]), which is below
    [BUFFER_SIZE], so no arithmetic on them overflows and [nat] is exact. *)
Record rstate : Type := RState {
  buffer : list ascii;
  printable : nat;
  skipped : nat;
  out : list token
}.

(** [if (skipped) printf("<%u>", skipped);] *)
Definition flush_marker (skipped : nat) (out : list token) : list token :=
  match skipped with
  | O => out
  | S _ => out ++ [Marker skipped]
  end.

(** One iteration of the [for] loop, at index [i] (lines 164-183).  Reading
    past the end of the buffer does not happen for [i < read_size]; the model
    reads NUL there. *)
Definition render_step (st : rstate) (i : nat) : rstate :=
  let b := default NUL (buffer st !! i) in
  if is_printable b then
    RState (buffer st) (printable st + 1) (skipped st) (out st)
  else if print_threshold <=? printable st then
    let buf' := <[i := NUL]> (buffer st) in
    RState buf' 0 (skipped st + 1)
      (flush_marker (skipped st) (out st) ++ [Text (cstr buf' (i - printable st))])
  else
    RState (buffer st) 0 (skipped st + printable st + 1) (out st).

Definition render_loop (st : rstate) (n : nat) : rstate :=
  fold_left render_step (seq 0 n) st.

(** Lines 157 and 161-189: terminate the buffer, scan [read_size] bytes, then
    flush the pending marker and the trailing run. *)
Definition render (buf : list ascii) (read_size : nat) : list token :=
  let st0 := RState (<[read_size := NUL]> buf) 0 0 [] in
  let st := render_loop st0 read_size in
  let buf' := <[read_size := NUL]> (buffer st) in
  flush_marker (skipped st) (out st)
    ++ [Text (cstr buf' (read_size - printable st))].

(** [%u] of a non-negative [int]. *)
Definition dec (n : nat) : list ascii :=
  list_ascii_of_string (NilEmpty.string_of_uint (Nat.to_uint n)).

Definition token_text (t : token) : list ascii :=
  match t with
  | Marker n => "<"%char :: dec n ++ [">"%char]
  | Text s => s
  end.

(** The characters that reach standard output. *)
Definition rendered (ts : list token) : list ascii :=
  concat (map token_text ts).

(** The counts of the emitted [<N>] markers, in order. *)
Fixpoint markers (ts : list token) : list nat :=
  match ts with
  | [] => []
  | Marker n :: ts' => n :: markers ts'
  | Text _ :: ts' => markers ts'
  end.

Definition bytes (s : string) : list ascii := list_ascii_of_string s.

End Renderer.

(** ** Sockets, loop attachments, watchers and heap records

    What the callbacks acquire and release.  A socket is named by a number; an
    [ev_uinet_ctx] is named by the socket it is attached to; a watcher lives
    inside the record that embeds it ([conn->watcher],
    [passive->listen_watcher]) and is named by that record's address. *)

Module Env.

Definition sock : Type := nat.
Definition ptr : Type := nat.

(** [struct passive_context]; the loop is the one the callbacks receive. *)
Record passive_context : Type := PassiveContext {
  listener : sock;
  verbose : Z
}.

(** [struct connection_context]; [watcher_so] is [conn->watcher.so].
    [bytes_read] is a [uint64_t]. *)
Record connection_context : Type := ConnectionContext {
  label : string;
  watcher_so : sock;
  server : passive_context;
  bytes_read : Z
}.

(** Calls that configure a socket, with their arguments. *)
Inductive tcp_opt : Type :=
  | TCP_NODELAY | TCP_KEEPINIT | TCP_KEEPIDLE | TCP_KEEPINTVL | TCP_KEEPCNT
  | TCP_REASSDL.

Inductive call : Type :=
  | MakePassive (so : sock)
  | MakePromiscuous (so : sock) (cdom : Z)
  | SetNonblocking (so : sock) (on : Z)
  | SetSockOpt (so : sock) (opt : tcp_opt) (optval : Z)
  | Bind (so : sock) (port : Z)
  | Listen (so : sock) (backlog : Z).

Record world : Type := World {
  sockets : gset sock;                  (* created or accepted, not closed *)
  attached : gset sock;                 (* sockets with a live ev_uinet_ctx *)
  watchers : gset ptr;                  (* started, not stopped *)
  conns : gmap ptr connection_context;  (* allocated, not freed *)
  passives : gmap ptr passive_context;  (* allocated, not freed *)
  calls : list call                     (* configuration calls, oldest first *)
}.

Definition empty_world : world := World ∅ ∅ ∅ ∅ ∅ [].

(** How a callback ends: it returns, a failed [assert] aborts the process, or
    it writes through an invalid pointer. *)
Inductive outcome (A : Type) : Type :=
  | Returned (a : A)
  | Aborted
  | Fault (a : A).
Arguments Returned {A} a.
Arguments Aborted {A}.
Arguments Fault {A} a.

Definition uinet_soclose (so : sock) (w : world) : world :=
  World (sockets w ∖ {[so]}) (attached w) (watchers w) (conns w) (passives w)
    (calls w).

Definition ev_uinet_detach (so : sock) (w : world) : world :=
  World (sockets w) (attached w ∖ {[so]}) (watchers w) (conns w) (passives w)
    (calls w).

Definition ev_uinet_start (p : ptr) (w : world) : world :=
  World (sockets w) (attached w) ({[p]} ∪ watchers w) (conns w) (passives w)
    (calls w).

Definition ev_uinet_stop (p : ptr) (w : world) : world :=
  World (sockets w) (attached w) (watchers w ∖ {[p]}) (conns w) (passives w)
    (calls w).

Definition free_conn (p : ptr) (w : world) : world :=
  World (sockets w) (attached w) (watchers w) (delete p (conns w)) (passives w)
    (calls w).

Definition store_conn (p : ptr) (c : connection_context) (w : world) : world :=
  World (sockets w) (attached w) (watchers w) (<[p := c]> (conns w))
    (passives w) (calls w).

(** The resources of [w'] are those of [w]: nothing acquired is still held
    and nothing else was released. *)
Definition same_resources (w w' : world) : Prop :=
  sockets w' = sockets w ∧ attached w' = attached w
  ∧ watchers w' = watchers w ∧ conns w' = conns w
  ∧ passives w' = passives w.

(** The number of Connections alive: records whose watcher is registered. *)
Definition live_connections (w : world) : nat :=
  size (filter (λ p, p ∈ watchers w) (dom (conns w))).

End Env.

(** ** The read handler *)

Module ReadHandler.
Import Renderer Env.

Definition BUFFER_SIZE : Z := 64 * 1024.

Definition imin (a b : Z) : Z := if (a <? b)%Z then a else b.

(** What the transport answers during one invocation. *)
Record read_event : Type := ReadEvent {
  max_read : Z;                (* uinet_soreadable(w->so, 0) *)
  recv_error : Z;              (* return value of uinet_soreceive *)
  recv_resid : Z;              (* uio.uio_resid after the receive *)
  recv_buffer : list ascii     (* buffer[] after the receive *)
}.

Inductive log_item : Type :=
  | LogCantRead (label : string)
  | LogReadError (label : string) (error : Z)
  | LogTcpState (label : string)
  | LogDump (label : string) (read_size total : Z) (body : list token).

(** Line 134: [read_size = imin(max_read, BUFFER_SIZE - 1)]. *)
Definition read_size (ev : read_event) : Z :=
  imin (max_read ev) (BUFFER_SIZE - 1).

(** The [err:] label (lines 197-200). *)
Definition teardown (c : ptr) (conn : connection_context) (w : world) : world :=
  free_conn c (uinet_soclose (watcher_so conn) (ev_uinet_stop c w)).

(** [conn->bytes_read += read_size] on a [uint64_t]. *)
Definition add_bytes_read (conn : connection_context) (read_size : Z)
  : connection_context :=
  ConnectionContext (label conn) (watcher_so conn) (server conn)
    ((bytes_read conn + read_size) mod 2 ^ 64)%Z.

(** [passive_receive_cb] for the watcher embedded in the record at [c].
    [assert] is the one of <assert.h>, compiled in (the file does not define
    NDEBUG).  A watcher whose record is gone is an invalid access. *)
Definition passive_receive_cb (w : world) (c : ptr) (ev : read_event)
  : outcome (world * list log_item) :=
  match conns w !! c with
  | None => Fault (w, [])
  | Some conn =>
    if (max_read ev <=? 0)%Z then
      if (max_read ev =? 0)%Z then Aborted
      else Returned (teardown c conn w, [LogCantRead (label conn)])
    else
      let read_size := read_size ev in
      if negb (recv_error ev =? 0)%Z then
        Returned (teardown c conn w, [LogReadError (label conn) (recv_error ev)])
      else if negb (recv_resid ev =? 0)%Z then Aborted
      else
        let conn' := add_bytes_read conn read_size in
        let v := verbose (server conn') in
        Returned
          (store_conn c conn' w,
           (if (1 <? v)%Z then [LogTcpState (label conn')] else [])
           ++ (if (v =? 0)%Z then []
               else [LogDump (label conn') read_size (bytes_read conn')
                       (render (recv_buffer ev) (Z.to_nat read_size))]))
  end.

(** The handler invoked once per event, for as long as it returns. *)
Fixpoint run_reads (w : world) (c : ptr) (evs : list read_event)
  : outcome (world * list log_item) :=
  match evs with
  | [] => Returned (w, [])
  | ev :: evs' =>
    match passive_receive_cb w c ev with
    | Returned (w', l) =>
      match run_reads w' c evs' with
      | Returned (w'', l') => Returned (w'', l ++ l')
      | Aborted => Aborted
      | Fault (w'', l') => Fault (w'', l ++ l')
      end
    | r => r
    end
  end.

(** A read that the handler completes: bytes available, no error, nothing
    left to receive. *)
Definition successful (ev : read_event) : Prop :=
  (0 < max_read ev)%Z ∧ recv_error ev = 0%Z ∧ recv_resid ev = 0%Z.

(** The bytes requested over a run of events. *)
Definition total_read (evs : list read_event) : Z :=
  foldr Z.add 0%Z (map read_size evs).

(** The counter of the Connection at [c], if the record is alive. *)
Definition counter (w : world) (c : ptr) : option Z :=
  bytes_read <$> conns w !! c.

(** A world with one running Connection, record 7 on socket 3. *)
Definition sample_conn : connection_context :=
  ConnectionContext "SERVER" 3 (PassiveContext 1 0) 0.

Definition sample_world : world :=
  ev_uinet_start 7
    (store_conn 7 sample_conn (World {[1; 3]} {[1; 3]} ∅ ∅ ∅ [])).

End ReadHandler.

(** ** The connection acceptor *)

Module Acceptor.
Import Env.

(** [struct uinet_sockaddr_in], as far as the labels read it.  Both fields are
    kept as the bytes they occupy in memory (network byte order), which is
    what [ntohs] and the address formatter consume on any host. *)
Definition in_addr : Type := (nat * nat * nat * nat)%type.

Record sockaddr_in : Type := SockaddrIn {
  sin_addr : in_addr;
  sin_port : nat * nat
}.

Definition ntohs (p : nat * nat) : nat := fst p * 256 + snd p.

Definition dec (n : nat) : string := NilEmpty.string_of_uint (Nat.to_uint n).

(** The dotted-quad text of an address. *)
Definition dotted_quad (a : in_addr) : string :=
  let '(a0, a1, a2, a3) := a in
  dec a0 +:+ "." +:+ dec a1 +:+ "." +:+ dec a2 +:+ "." +:+ dec a3.

(** [char buf1[32], buf2[32]]: the two scratch buffers of [accept_cb]. *)
Inductive bufid : Type := Buf1 | Buf2.

Record bufs : Type := Bufs { buf1 : string; buf2 : string }.

Definition write_buf (b : bufid) (s : string) (m : bufs) : bufs :=
  match b with
  | Buf1 => Bufs s (buf2 m)
  | Buf2 => Bufs (buf1 m) s
  end.

Definition read_buf (b : bufid) (m : bufs) : string :=
  match b with
  | Buf1 => buf1 m
  | Buf2 => buf2 m
  end.

(** C leaves the order in which the arguments of a call are evaluated open;
    for the two formatter calls of one [snprintf] only their relative order
    matters. *)
Inductive arg_order : Type := LeftToRight | RightToLeft.

(** [snprintf(dst, size, ...)]: at most [size - 1] characters are stored. *)
Definition snprintf (size : nat) (s : string) : string :=
  substring 0 (size - 1) s.

Section Labels.

(** The text the address formatter produces. *)
Variable inet_ntoa_text : in_addr → string.

(** Modelled from the spec: [uinet_inet_ntoa] (the transport's address
    formatter of section 6, "address query/format/release"; its body is not
    in passive.c).  As its signature [(in, buf, size)] and its use as a [%s]
    argument say, it formats into the caller's buffer and returns that
    buffer. *)
Definition uinet_inet_ntoa (a : in_addr) (b : bufid) (m : bufs)
  : bufid * bufs :=
  (b, write_buf b (inet_ntoa_text a) m).

(** Lines 250-252 and 264-266.  Both formatter calls are handed [buf1] (the
    second one with [sizeof(buf2)]); [snprintf] reads the two [%s] arguments
    after both calls have run. *)
Definition format_label (tag : string) (sin1 sin2 : sockaddr_in)
    (ord : arg_order) (m : bufs) : string * bufs :=
  let '(p1, p2, m') :=
    match ord with
    | LeftToRight =>
      let '(p1, m1) := uinet_inet_ntoa (sin_addr sin1) Buf1 m in
      let '(p2, m2) := uinet_inet_ntoa (sin_addr sin2) Buf1 m1 in
      (p1, p2, m2)
    | RightToLeft =>
      let '(p2, m1) := uinet_inet_ntoa (sin_addr sin2) Buf1 m in
      let '(p1, m2) := uinet_inet_ntoa (sin_addr sin1) Buf1 m1 in
      (p1, p2, m2)
    end in
  (snprintf 64
     (tag +:+ " (" +:+ read_buf p1 m' +:+ ":" +:+ dec (ntohs (sin_port sin1))
      +:+ " <- " +:+ read_buf p2 m' +:+ ":" +:+ dec (ntohs (sin_port sin2))
      +:+ ")"),
   m').

(** What the transport and the allocator answer during one accept. *)
Record accept_env : Type := AcceptEnv {
  accepted : option sock;        (* uinet_soaccept; None is -1 *)
  attach_ok : bool;              (* ev_uinet_attach(newso) *)
  passive_peer : sock;           (* uinet_sogetpassivepeer(newso) *)
  peer_attach_ok : bool;         (* ev_uinet_attach(newpeerso) *)
  conn_alloc : option ptr;       (* first calloc; None is NULL *)
  peerconn_alloc : option ptr;   (* second calloc *)
  so_local : sockaddr_in;        (* uinet_sogetsockaddr(newso) *)
  so_remote : sockaddr_in;       (* uinet_sogetpeeraddr(newso) *)
  peer_local : sockaddr_in;      (* uinet_sogetsockaddr(newpeerso) *)
  peer_remote : sockaddr_in;     (* uinet_sogetpeeraddr(newpeerso) *)
  order : arg_order;
  stack_bufs : bufs              (* buf1, buf2 on entry *)
}.

(** The handler's pointer variables; [None] is NULL.  A context is named by
    its socket. *)
Record locals : Type := Locals {
  newso : option sock;
  newpeerso : option sock;
  conn : option ptr;
  peerconn : option ptr;
  soctx : option sock;
  peersoctx : option sock
}.

Definition socket_opened (so : sock) (w : world) : world :=
  World ({[so]} ∪ sockets w) (attached w) (watchers w) (conns w) (passives w)
    (calls w).

(** [ev_uinet_attach]: a context for [so], or NULL. *)
Definition ev_uinet_attach (ok : bool) (so : sock) (w : world)
  : option sock * world :=
  if ok then
    (Some so,
     World (sockets w) ({[so]} ∪ attached w) (watchers w) (conns w)
       (passives w) (calls w))
  else (None, w).

(** [calloc(1, sizeof(struct connection_context))]: a zeroed record. *)
Definition zeroed_conn : connection_context :=
  ConnectionContext "" 0 (PassiveContext 0 0) 0.

(** The [fail:] label (lines 278-284). *)
Definition fail (l : locals) (w : world) : world :=
  let w := match conn l with Some p => free_conn p w | None => w end in
  let w := match peerconn l with Some p => free_conn p w | None => w end in
  let w := match soctx l with Some s => ev_uinet_detach s w | None => w end in
  let w := match peersoctx l with Some s => ev_uinet_detach s w | None => w end in
  let w := match newso l with Some s => uinet_soclose s w | None => w end in
  match newpeerso l with Some s => uinet_soclose s w | None => w end.

(** Lines 248-260 and 262-274 for one side: label the record, point its
    watcher at the socket's context and start it. *)
Definition start_side (tag : string) (sin1 sin2 : sockaddr_in)
    (ord : arg_order) (m : bufs) (passive : passive_context) (so : sock)
    (p : ptr) (w : world) : world * bufs :=
  let '(lbl, m') := format_label tag sin1 sin2 ord m in
  (ev_uinet_start p (store_conn p (ConnectionContext lbl so passive 0) w), m').

(** [accept_cb] for the listener described by [passive]. *)
Definition accept_cb (w0 : world) (passive : passive_context) (e : accept_env)
  : outcome world :=
  match accepted e with
  | None => Returned w0
  | Some so =>
    let w1 := socket_opened so w0 in
    let '(ctx, w2) := ev_uinet_attach (attach_ok e) so w1 in
    match ctx with
    | None => Returned (fail (Locals (Some so) None None None None None) w2)
    | Some _ =>
      let peer := passive_peer e in
      let w3 := socket_opened peer w2 in
      let '(peerctx, w4) := ev_uinet_attach (peer_attach_ok e) peer w3 in
      match peerctx with
      | None =>
        Returned (fail (Locals (Some so) (Some peer) None None ctx None) w4)
      | Some _ =>
        let c := conn_alloc e in
        let w5 := match c with
                  | Some p => store_conn p zeroed_conn w4
                  | None => w4
                  end in
        match c with
        | None =>
          Returned
            (fail (Locals (Some so) (Some peer) None None ctx peerctx) w5)
        | Some p =>
          let pc := peerconn_alloc e in
          let w6 := match pc with
                    | Some q => store_conn q zeroed_conn w5
                    | None => w5
                    end in
          (* line 242 tests [conn], which is known to be non-NULL here *)
          match c with
          | None =>
            Returned (fail (Locals (Some so) (Some peer) c pc ctx peerctx) w6)
          | Some _ =>
            let '(w7, m1) :=
              start_side "SERVER" (so_local e) (so_remote e) (order e)
                (stack_bufs e) passive so p w6 in
            match pc with
            | None => Fault w7          (* [peerconn->label] through NULL *)
            | Some q =>
              let '(w8, _) :=
                start_side "CLIENT" (peer_local e) (peer_remote e) (order e)
                  m1 passive peer q w7 in
              Returned w8
            end
          end
        end
      end
    end
  end.

End Labels.

(** A listener on socket 1 (record 2) and one flow: the server side is
    192.168.1.1:80, the client side 10.0.0.2:51000. *)
Definition server_side : sockaddr_in := SockaddrIn (192, 168, 1, 1) (0, 80).
Definition client_side : sockaddr_in := SockaddrIn (10, 0, 0, 2) (199, 56).

Definition sample_passive : passive_context := PassiveContext 1 0.

Definition listening_world : world :=
  World {[1]} {[1]} {[2]} ∅ {[2 := sample_passive]} [].

(** An accept in which every step succeeds, except that the second [calloc]
    returns [peer_record]. *)
Definition sample_accept (ord : arg_order) (peer_record : option ptr)
  : accept_env :=
  AcceptEnv (Some 5) true 6 true (Some 10) peer_record
    server_side client_side client_side server_side ord (Bufs "" "").

End Acceptor.

(** ** Configuration records *)

Module Config.

(** [struct interface_config]; the thread fields play no part here. *)
Record interface_config : Type := InterfaceConfig {
  ifname : string;
  alias : string;
  cdom : Z;
  loop : option nat;
  promisc : Z;
  iftype : Z;
  instance : Z;
  alias_prefix : string
}.

(** [struct server_config]; [interface] is the index in [interfaces[]] of the
    entry the C pointer designates. *)
Record server_config : Type := ServerConfig {
  listen_addr : string;
  listen_port : Z;
  interface : nat;
  verbose : Z;
  passive : option Env.ptr;
  addrany : Z
}.

(** An address parser that knows two texts: the wildcard, and 10.0.0.1 as
    the [s_addr] value a little-endian host stores for it. *)
Definition sample_pton (s : string) : option Z :=
  if String.eqb s "0.0.0.0" then Some 0%Z
  else if String.eqb s "10.0.0.1" then Some 0x0100000a%Z
  else None.

Definition sample_interface (promisc : Z) : interface_config :=
  InterfaceConfig "em0" "" 1 None promisc 0 0 "netmap".

End Config.

(** ** Listener construction *)

Module Listener.
Import Env.

(** The pointer variables of [create_passive]; [None] is NULL. *)
Record locals : Type := Locals {
  passive : option ptr;
  listener : option sock;
  soctx : option sock
}.

(** Straight-line code over the locals and the world, left by [goto fail]. *)
Inductive result (A : Type) : Type :=
  | Ok (a : A) (l : locals) (w : world)
  | GotoFail (l : locals) (w : world).
Arguments Ok {A} a l w.
Arguments GotoFail {A} l w.

Definition M (A : Type) : Type := locals → world → result A.

#[export] Instance M_ret : MRet M := λ A a l w, Ok a l w.

#[export] Instance M_bind : MBind M := λ A B k m l w,
  match m l w with
  | Ok a l' w' => k a l' w'
  | GotoFail l' w' => GotoFail l' w'
  end.

Definition goto_fail {A : Type} : M A := λ l w, GotoFail l w.

(** [if ((error = f(...))) goto fail;], where [f] took effect as [c] when it
    reported no error. *)
Definition checked (error : Z) (c : call) : M unit := λ l w,
  if (error =? 0)%Z then
    Ok () l
      (World (sockets w) (attached w) (watchers w) (conns w) (passives w)
         (calls w ++ [c]))
  else GotoFail l w.

(** What the transport and the allocator answer during one construction. *)
Record listen_env : Type := ListenEnv {
  socreate_error : Z;
  socreate_so : sock;
  attach_ok : bool;
  make_passive_error : Z;
  make_promiscuous_error : Z;
  setsockopt_error : tcp_opt → Z;
  malloc_result : option ptr;
  bind_error : Z;
  listen_error : Z
}.

Section CreatePassive.

(** [uinet_inet_pton(UINET_AF_INET, s, &addr)]: the parsed [s_addr], or
    [None] when the call returns a value [<= 0]. *)
Variable uinet_inet_pton : string → option Z.

Variable e : listen_env.

Definition parse_address (s : string) : M Z := λ l w,
  match uinet_inet_pton s with
  | Some a => Ok a l w
  | None => GotoFail l w
  end.

Definition uinet_socreate : M sock := λ l w,
  if (socreate_error e =? 0)%Z then
    let so := socreate_so e in
    Ok so (Locals (passive l) (Some so) (soctx l))
      (World ({[so]} ∪ sockets w) (attached w) (watchers w) (conns w)
         (passives w) (calls w))
  else GotoFail l w.

Definition ev_uinet_attach (so : sock) : M sock := λ l w,
  if attach_ok e then
    Ok so (Locals (passive l) (listener l) (Some so))
      (World (sockets w) ({[so]} ∪ attached w) (watchers w) (conns w)
         (passives w) (calls w))
  else GotoFail l w.

Definition uinet_sosetnonblocking (so : sock) (on : Z) : M unit :=
  checked 0 (SetNonblocking so on).

Definition uinet_sosetsockopt (so : sock) (opt : tcp_opt) (optval : Z)
  : M unit :=
  checked (setsockopt_error e opt) (SetSockOpt so opt optval).

(** [malloc] and the three field assignments that follow it. *)
Definition malloc_passive (so : sock) (verbose : Z) : M ptr := λ l w,
  match malloc_result e with
  | Some p =>
    Ok p (Locals (Some p) (listener l) (soctx l))
      (World (sockets w) (attached w) (watchers w) (conns w)
         (<[p := PassiveContext so verbose]> (passives w)) (calls w))
  | None => GotoFail l w
  end.

Definition start_listen_watcher (p : ptr) : M unit := λ l w,
  Ok () l (ev_uinet_start p w).

(** Lines 299-406. *)
Definition body (ifc : Config.interface_config) (cfg : Config.server_config)
  : M ptr :=
  addr ← parse_address (Config.listen_addr cfg);
  so ← uinet_socreate;
  ctx ← ev_uinet_attach so;
  checked (make_passive_error e) (MakePassive so);;
  (if (Config.promisc ifc =? 0)%Z then mret ()
   else checked (make_promiscuous_error e)
          (MakePromiscuous so (Config.cdom ifc)));;
  uinet_sosetnonblocking so 1;;
  uinet_sosetsockopt so TCP_NODELAY 1;;
  uinet_sosetsockopt so TCP_KEEPINIT 5;;
  uinet_sosetsockopt so TCP_KEEPIDLE 1;;
  uinet_sosetsockopt so TCP_KEEPINTVL 1;;
  uinet_sosetsockopt so TCP_KEEPCNT 5;;
  uinet_sosetsockopt so TCP_REASSDL 2;;
  p ← malloc_passive so (Config.verbose cfg);
  checked (bind_error e) (Bind so (Config.listen_port cfg));;
  checked (listen_error e) (Listen so (-1));;
  start_listen_watcher p;;
  mret p.

(** The [fail:] label (lines 408-411). *)
Definition fail (l : locals) (w : world) : world :=
  let w := match soctx l with Some s => ev_uinet_detach s w | None => w end in
  let w := match listener l with Some s => uinet_soclose s w | None => w end in
  match passive l with
  | Some p =>
    World (sockets w) (attached w) (watchers w) (conns w)
      (delete p (passives w)) (calls w)
  | None => w
  end.

(** [create_passive]: the new listener, or NULL. *)
Definition create_passive (w : world) (ifc : Config.interface_config)
    (cfg : Config.server_config) : option ptr * world :=
  match body ifc cfg (Locals None None None) w with
  | Ok p _ w' => (Some p, w')
  | GotoFail l w' => (None, fail l w')
  end.

(** Every fallible step of one construction reports success. *)
Definition all_steps_succeed (ifc : Config.interface_config)
    (cfg : Config.server_config) : Prop :=
  is_Some (uinet_inet_pton (Config.listen_addr cfg))
  ∧ socreate_error e = 0%Z
  ∧ attach_ok e = true
  ∧ make_passive_error e = 0%Z
  ∧ (Config.promisc ifc ≠ 0%Z → make_promiscuous_error e = 0%Z)
  ∧ (∀ opt, setsockopt_error e opt = 0%Z)
  ∧ is_Some (malloc_result e)
  ∧ bind_error e = 0%Z
  ∧ listen_error e = 0%Z.

End CreatePassive.

(** A transport on which every step succeeds; the new socket is 4 and the
    new record is at 9. *)
Definition obliging : listen_env :=
  ListenEnv 0 4 true 0 0 (λ _, 0%Z) (Some 9) 0 0.

(** The same, except that [bind] fails with error 48. *)
Definition bind_refused : listen_env :=
  ListenEnv 0 4 true 0 0 (λ _, 0%Z) (Some 9) 48 0.

End Listener.

(** ** Startup: [main] after option parsing *)

Module Startup.
Import Env Config.

(** What [main] asks of the transport while provisioning; the creation calls
    carry the configuration records as they are when the call is made. *)
Inductive startup_call : Type :=
  | UinetInit
  | IfCreate (k : nat) (ifc : interface_config) (cdom_arg : Z)
  | AddAlias (i : nat) (alias addr : string)
  | CreatePassive (i : nat) (ifc : interface_config) (cfg : server_config).

Definition with_promisc (ifc : interface_config) : interface_config :=
  InterfaceConfig (ifname ifc) (alias ifc) (cdom ifc) (loop ifc) 1
    (iftype ifc) (instance ifc) (alias_prefix ifc).

(** [servers[i].interface->promisc = 1] *)
Definition set_promisc (k : nat) (ifs : list interface_config)
  : list interface_config :=
  alter with_promisc k ifs.

(** The interface at index [k] has its promiscuity flag set. *)
Definition flagged (k : nat) (ifs : list interface_config) : Prop :=
  ∃ ifc, ifs !! k = Some ifc ∧ promisc ifc = 1%Z.

Definition with_addrany (s : server_config) : server_config :=
  ServerConfig (listen_addr s) (listen_port s) (interface s) (verbose s)
    (passive s) 1.

Section Main.

(** [uinet_inet_pton(UINET_AF_INET, s, &addr)]: the parsed [s_addr], or
    [None] when the call returns a value [<= 0]. *)
Variable uinet_inet_pton : string → option Z.

(** The constant of uinet_api.h. *)
Variable UINET_INADDR_ANY : Z.

(** [snprintf(alias, UINET_IF_NAMESIZE, "%s%d", alias_prefix, instance)] *)
Variable alias_text : string → Z → string.

(** One iteration of the validation loop (lines 566-589); [None] is
    [return (1)]. *)
Definition validate_server (ifs : list interface_config) (s : server_config)
  : option (list interface_config * server_config) :=
  if (listen_port s =? -1)%Z then None
  else if ((listen_port s <? 0)%Z || (65535 <? listen_port s)%Z)%bool then None
  else
    let ifs1 :=
      if (listen_port s =? 0)%Z then set_promisc (interface s) ifs else ifs in
    match uinet_inet_pton (listen_addr s) with
    | None => None
    | Some a =>
      if (a =? UINET_INADDR_ANY)%Z then
        Some (set_promisc (interface s) ifs1, with_addrany s)
      else Some (ifs1, s)
    end.

(** The validation loop (lines 565-590) over [servers[0..num_servers)]. *)
Fixpoint validate (ifs : list interface_config) (servers : list server_config)
  : option (list interface_config * list server_config) :=
  match servers with
  | [] => Some (ifs, [])
  | s :: rest =>
    match validate_server ifs s with
    | None => None
    | Some (ifs1, s1) =>
      match validate ifs1 rest with
      | None => None
      | Some (ifs2, rest1) => Some (ifs2, s1 :: rest1)
      end
    end
  end.

(** The interface loop (lines 595-617), from index [k] on; [loop_new k] is
    what [ev_loop_new] returns in iteration [k], and a NULL loop ends the
    loop. *)
Fixpoint create_interfaces (loop_new : nat → option nat) (k : nat)
    (todo : list interface_config)
  : list startup_call * list interface_config :=
  match todo with
  | [] => ([], [])
  | ifc :: rest =>
    let named :=
      InterfaceConfig (ifname ifc)
        (alias_text (alias_prefix ifc) (instance ifc)) (cdom ifc) (loop ifc)
        (promisc ifc) (iftype ifc) (instance ifc) (alias_prefix ifc) in
    let created :=
      IfCreate k named (if (promisc named =? 0)%Z then 0%Z else cdom named) in
    let looped :=
      InterfaceConfig (ifname named) (alias named) (cdom named) (loop_new k)
        (promisc named) (iftype named) (instance named) (alias_prefix named) in
    match loop_new k with
    | None => ([created], looped :: rest)
    | Some _ =>
      let '(cs, rest') := create_interfaces loop_new (S k) rest in
      (created :: cs, looped :: rest')
    end
  end.

(** The alias loop (lines 620-631), from server index [i] on. *)
Fixpoint add_aliases (ifs : list interface_config) (i : nat)
    (servers : list server_config) : list startup_call :=
  match servers with
  | [] => []
  | s :: rest =>
    (if (addrany s =? 0)%Z then
       [AddAlias i (default "" (alias <$> ifs !! interface s)) (listen_addr s)]
     else [])
    ++ add_aliases ifs (S i) rest
  end.

(** The listener loop (lines 634-650), from server index [i] on; [envs i] is
    what the transport answers to the [i]th construction, and a NULL listener
    ends the loop. *)
Fixpoint create_passives (envs : nat → Listener.listen_env)
    (ifs : list interface_config) (verbosity : Z) (i : nat)
    (servers : list server_config) (w : world)
  : list startup_call * list server_config * world :=
  match servers with
  | [] => ([], [], w)
  | s :: rest =>
    let cfg :=
      ServerConfig (listen_addr s) (listen_port s) (interface s) verbosity
        (passive s) (addrany s) in
    match ifs !! interface s with
    | None => ([], cfg :: rest, w)
    | Some ifc =>
      let '(p, w1) :=
        Listener.create_passive uinet_inet_pton (envs i) w ifc cfg in
      let made :=
        ServerConfig (listen_addr cfg) (listen_port cfg) (interface cfg)
          (verbose cfg) p (addrany cfg) in
      match p with
      | None => ([CreatePassive i ifc cfg], made :: rest, w1)
      | Some _ =>
        let '(cs, rest', w2) :=
          create_passives envs ifs verbosity (S i) rest w1 in
        (CreatePassive i ifc cfg :: cs, made :: rest', w2)
      end
    end
  end.

(** Lines 565-650: validation, then provisioning.  The result is the exit
    status when validation fails, or the calls issued and the world built. *)
Definition startup (loop_new : nat → option nat)
    (envs : nat → Listener.listen_env) (verbosity : Z)
    (ifs : list interface_config) (servers : list server_config)
  : Z + (list startup_call * world) :=
  match validate ifs servers with
  | None => inl 1%Z
  | Some (ifs1, servers1) =>
    let '(created, ifs2) := create_interfaces loop_new 0 ifs1 in
    let aliased := add_aliases ifs2 0 servers1 in
    let '(made, _, w) :=
      create_passives envs ifs2 verbosity 0 servers1 empty_world in
    inr (UinetInit :: created ++ aliased ++ made, w)
  end.

End Main.

End Startup.

(** ** What the renderer's output shows *)

Module Measures.
Import Renderer.

(** The runs of bytes printed with [%s], in order. *)
Fixpoint texts (ts : list token) : list (list ascii) :=
  match ts with
  | [] => []
  | Marker _ :: ts' => texts ts'
  | Text s :: ts' => s :: texts ts'
  end.

(** All the bytes printed with [%s]. *)
Definition printed (ts : list token) : list ascii := concat (texts ts).

(** The count shown by the last marker, 0 when no marker was printed. *)
Definition last_marker (ts : list token) : nat := default 0 (last (markers ts)).

(** Strictly increasing, position by position. *)
Definition increasing (l : list nat) : Prop :=
  ∀ i j a b, i < j → l !! i = Some a → l !! j = Some b → a < b.

(** What holds after [n] iterations of the loop over a buffer that held
    [buf0] when the loop started. *)
Record invariant (buf0 : list ascii) (n : nat) (st : rstate) : Prop :=
  Invariant {
    inv_length : length (buffer st) = length buf0;
    inv_run : printable st ≤ n;
    inv_buffer :
      drop (n - printable st) (buffer st) = drop (n - printable st) buf0;
    inv_printable :
      Forall (λ b, is_printable b = true)
        (take (printable st) (drop (n - printable st) buf0));
    inv_count : length (printed (out st)) + skipped st + printable st = n;
    inv_printed : Forall (λ b, is_printable b = true) (printed (out st));
    inv_sublist : printed (out st) `sublist_of` take (n - printable st) buf0;
    inv_runs : Forall (λ s, print_threshold ≤ length s) (texts (out st));
    inv_increasing : increasing (markers (out st));
    inv_below : Forall (λ m, m < skipped st) (markers (out st))
  }.

(** A read of 33 bytes: a run of twelve, two bytes of noise, a run of two,
    one byte of noise, a run of twelve and four bytes of noise; the buffer
    goes on after it. *)
Definition noisy_buffer : list ascii :=
  bytes "HTTP/1.1 200" ++ [ascii_of_nat 1; ascii_of_nat 2] ++ bytes "OK"
    ++ [ascii_of_nat 0] ++ bytes "Content-Type"
    ++ [ascii_of_nat 200; ascii_of_nat 201; ascii_of_nat 202; ascii_of_nat 0]
    ++ bytes "left over from an earlier read".

Definition noisy_length : nat := 33.

End Measures.

(** ** Sample Connections for the read handler *)

Module ReadSamples.
Import Env ReadHandler.

(** A Connection whose counter is ten bytes short of 2^64. *)
Definition nearly_full_conn : connection_context :=
  ConnectionContext "SERVER" 3 (PassiveContext 1 0) (2 ^ 64 - 10)%Z.

Definition nearly_full_world : world :=
  store_conn 7 nearly_full_conn sample_world.

(** A Connection of a listener with verbosity 1, and a read of the 33 bytes
    at the start of [noisy_buffer]. *)
Definition verbose_conn : connection_context :=
  ConnectionContext "CLIENT" 3 (PassiveContext 1 1) 0.

Definition verbose_world : world := store_conn 7 verbose_conn sample_world.

Definition noisy_read : read_event :=
  ReadEvent 33 0 0 Measures.noisy_buffer.

End ReadSamples.

(** ** Addresses as the transport hands them over *)

Module Wire.
Import Acceptor.

(** Every field of a socket address is made of bytes. *)
Definition octets (a : in_addr) : Prop :=
  let '(a0, a1, a2, a3) := a in a0 < 256 ∧ a1 < 256 ∧ a2 < 256 ∧ a3 < 256.

Definition well_formed (sa : sockaddr_in) : Prop :=
  octets (sin_addr sa) ∧ fst (sin_port sa) < 256 ∧ snd (sin_port sa) < 256.

(** The text of a label before [snprintf] stores it, for the address text
    [a] shown in both address fields. *)
Definition label_text (tag a : string) (sin1 sin2 : sockaddr_in) : string :=
  tag +:+ " (" +:+ a +:+ ":" +:+ dec (ntohs (sin_port sin1))
  +:+ " <- " +:+ a +:+ ":" +:+ dec (ntohs (sin_port sin2)) +:+ ")".

(** The address whose text a label shows: the one formatted last. *)
Definition shown_address (ord : arg_order) (sin1 sin2 : sockaddr_in)
  : in_addr :=
  match ord with
  | LeftToRight => sin_addr sin2
  | RightToLeft => sin_addr sin1
  end.

End Wire.

(** ** Sample transports for listener construction *)

Module ListenerSamples.
Import Env Listener.

(** A transport that refuses TCP_KEEPIDLE with error 22 and grants everything
    else; the new socket is 4 and the new record is at 9. *)
Definition keepidle_refused : listen_env :=
  ListenEnv 0 4 true 0 0
    (λ opt, match opt with TCP_KEEPIDLE => 22%Z | _ => 0%Z end)
    (Some 9) 0 0.

Definition sample_server : Config.server_config :=
  Config.ServerConfig "10.0.0.1" 80 0 1 None 0.

End ListenerSamples.

(** ** What validation checks and marks *)

Module Checks.
Import Config Startup.

Section Checks.

Variable uinet_inet_pton : string → option Z.
Variable UINET_INADDR_ANY : Z.

(** The two tests of the validation loop that can end the program. *)
Definition acceptable (s : server_config) : Prop :=
  (0 ≤ listen_port s ≤ 65535)%Z ∧ is_Some (uinet_inet_pton (listen_addr s)).

(** The listen address is the wildcard. *)
Definition wildcard (s : server_config) : bool :=
  bool_decide (uinet_inet_pton (listen_addr s) = Some UINET_INADDR_ANY).

(** The server asks for a promiscuous interface: port 0 or the wildcard. *)
Definition forces_promisc (s : server_config) : bool :=
  ((listen_port s =? 0)%Z || wildcard s)%bool.

(** What the loop leaves in [servers[]]: wildcard servers marked
    address-any. *)
Definition marked (servers : list server_config) : list server_config :=
  map (λ s, if wildcard s then with_addrany s else s) servers.

(** What the loop leaves in [interfaces[]]: promiscuity set, server by
    server, on the interface of each server that asks for it. *)
Definition forced (ifs : list interface_config)
    (servers : list server_config) : list interface_config :=
  foldl (λ ifs s,
           if forces_promisc s then set_promisc (interface s) ifs else ifs)
    ifs servers.

End Checks.

(** Two servers on one interface: one on the wildcard address with port 80,
    one on 10.0.0.1 with port 8080. *)
Definition two_servers : list server_config :=
  [ServerConfig "0.0.0.0" 80 0 0 None 0;
   ServerConfig "10.0.0.1" 8080 0 0 None 0].

(** Event loops for interfaces 0 and 1 only. *)
Definition two_loops (k : nat) : option nat :=
  if k <? 2 then Some (100 + k) else None.

Definition three_interfaces : list interface_config :=
  [sample_interface 0; sample_interface 1; sample_interface 0].

(** Alias names as [snprintf("%s%d")] makes them for small instances. *)
Definition sample_alias (prefix : string) (instance : Z) : string :=
  prefix +:+ NilEmpty.string_of_uint (Nat.to_uint (Z.to_nat instance)).

(** A transport that builds the first listener and fails to bind the
    second. *)
Definition second_bind_refused (i : nat) : Listener.listen_env :=
  if i =? 0 then Listener.obliging else Listener.bind_refused.

(** The two components of a provisioning result. *)
Definition log_of (r : Z + list startup_call * Env.world)
  : list startup_call :=
  match r with
  | inr (log, _) => log
  | inl _ => []
  end.

Definition world_of (r : Z + list startup_call * Env.world) : Env.world :=
  match r with
  | inr (_, w) => w
  | inl _ => Env.empty_world
  end.

End Checks.

(** ** Option parsing: the [getopt] loop of [main] *)

Module Options.
Import Config.

Definition MAX_INTERFACES : nat := 64.
Definition MAX_SERVERS : nat := 64.

(** What [getopt(argc, argv, "hi:l:Pp:t:v")] returns, call after call: the
    option letter and, for the letters followed by a colon, its argument.
    [-P] takes no argument, so the [optarg] its case reads is whatever
    [getopt] left there, possibly NULL.  ['?'] stands for an unknown option
    or a missing argument. *)
Inductive option_token : Type :=
  | Flag_h
  | Flag_i (optarg : string)
  | Flag_l (optarg : string)
  | Flag_P (optarg : option string)
  | Flag_p (optarg : string)
  | Flag_t (optarg : string)
  | Flag_v
  | Flag_unknown
  | Flag_other (ch : ascii).

(** The variables of [main] that the loop reads and writes.  The counters
    are C [int]s that stay within the array bounds. *)
Record parse_state : Type := ParseState {
  interfaces : list interface_config;
  servers : list server_config;
  num_interfaces : nat;
  num_servers : nat;
  interface_server_count : nat;
  verbosity : Z;
  ifnetmap_count : Z;
  ifpcap_count : Z
}.

(** How the loop goes on: with a new state, by [return (status)], or by an
    access outside an array or through NULL. *)
Inductive parse_result : Type :=
  | Parsed (st : parse_state)
  | Exited (status : Z)
  | Faulted.

(** [(int)x] for an [unsigned long] [x]. *)
Definition to_int (x : Z) : Z := ((x + 2 ^ 31) mod 2 ^ 32 - 2 ^ 31)%Z.

Section Parse.

(** [strtoul(s, NULL, 10)] *)
Variable strtoul : string → Z.

(** The constants of uinet_api.h. *)
Variable UINET_IFTYPE_NETMAP : Z.
Variable UINET_IFTYPE_PCAP : Z.

(** What the uninitialised fields of the two arrays happen to hold. *)
Variable junk_interface : interface_config.
Variable junk_server : server_config.

(** Lines 465-478. *)
Definition initial_interface : interface_config :=
  InterfaceConfig (ifname junk_interface) (alias junk_interface)
    (cdom junk_interface) None 0 UINET_IFTYPE_NETMAP
    (instance junk_interface) "netmap".

Definition initial_server : server_config :=
  ServerConfig "" (-1) (interface junk_server) (verbose junk_server) None 0.

Definition initial_state : parse_state :=
  ParseState (replicate MAX_INTERFACES initial_interface)
    (replicate MAX_SERVERS initial_server) 0 0 0 0 0 0.

(** [case 'i'] (lines 485-495). *)
Definition case_i (optarg : string) (st : parse_state) : parse_result :=
  if MAX_INTERFACES =? num_interfaces st then Exited 1
  else
    let n := num_interfaces st in
    Parsed
      (ParseState
         (alter (λ ifc,
                   InterfaceConfig optarg (alias ifc) (Z.of_nat n + 1)
                     (loop ifc) (promisc ifc) (iftype ifc) (instance ifc)
                     (alias_prefix ifc)) n (interfaces st))
         (servers st) (n + 1) (num_servers st) 0 (verbosity st)
         (ifnetmap_count st) (ifpcap_count st)).

(** [case 'l'] (lines 496-509).  The bound tested is the one of the
    interfaces; a write at [servers[num_servers]] past the array is a
    fault. *)
Definition case_l (optarg : string) (st : parse_state) : parse_result :=
  if 0 =? num_interfaces st then Exited 1
  else if MAX_INTERFACES =? num_interfaces st then Exited 1
  else if MAX_SERVERS <=? num_servers st then Faulted
  else
    Parsed
      (ParseState (interfaces st)
         (alter (λ s,
                   ServerConfig optarg (listen_port s)
                     (num_interfaces st - 1) (verbose s) (passive s)
                     (addrany s)) (num_servers st) (servers st))
         (num_interfaces st) (num_servers st + 1)
         (interface_server_count st + 1) (verbosity st) (ifnetmap_count st)
         (ifpcap_count st)).

(** [case 'p'] (lines 517-524), for the [optarg] at hand. *)
Definition case_p (optarg : option string) (st : parse_state)
  : parse_result :=
  if 0 =? interface_server_count st then Exited 1
  else
    match optarg with
    | None => Faulted
    | Some text =>
      if (0 =? num_servers st) || (MAX_SERVERS <? num_servers st) then Faulted
      else
        Parsed
          (ParseState (interfaces st)
             (alter (λ s,
                       ServerConfig (listen_addr s) (to_int (strtoul text))
                         (interface s) (verbose s) (passive s) (addrany s))
                (num_servers st - 1) (servers st))
             (num_interfaces st) (num_servers st)
             (interface_server_count st) (verbosity st) (ifnetmap_count st)
             (ifpcap_count st))
    end.

(** [case 'P'] (lines 510-516): it sets the flag and, having no [break],
    goes on into [case 'p']. *)
Definition case_P (optarg : option string) (st : parse_state)
  : parse_result :=
  if 0 =? num_interfaces st then Exited 1
  else
    case_p optarg
      (ParseState
         (alter (λ ifc,
                   InterfaceConfig (ifname ifc) (alias ifc) (cdom ifc)
                     (loop ifc) 1 (iftype ifc) (instance ifc)
                     (alias_prefix ifc)) (num_interfaces st - 1)
            (interfaces st))
         (servers st) (num_interfaces st) (num_servers st)
         (interface_server_count st) (verbosity st) (ifnetmap_count st)
         (ifpcap_count st)).

(** [case 't'] (lines 525-541). *)
Definition case_t (optarg : string) (st : parse_state) : parse_result :=
  if 0 =? num_interfaces st then Exited 1
  else if String.eqb optarg "netmap" then
    Parsed
      (ParseState
         (alter (λ ifc,
                   InterfaceConfig (ifname ifc) (alias ifc) (cdom ifc)
                     (loop ifc) (promisc ifc) UINET_IFTYPE_NETMAP
                     (ifnetmap_count st) "netmap") (num_interfaces st - 1)
            (interfaces st))
         (servers st) (num_interfaces st) (num_servers st)
         (interface_server_count st) (verbosity st) (ifnetmap_count st + 1)
         (ifpcap_count st))
  else if String.eqb optarg "pcap" then
    Parsed
      (ParseState
         (alter (λ ifc,
                   InterfaceConfig (ifname ifc) (alias ifc) (cdom ifc)
                     (loop ifc) (promisc ifc) UINET_IFTYPE_PCAP
                     (ifpcap_count st) "pcap") (num_interfaces st - 1)
            (interfaces st))
         (servers st) (num_interfaces st) (num_servers st)
         (interface_server_count st) (verbosity st) (ifnetmap_count st)
         (ifpcap_count st + 1))
  else Exited 1.

(** The [switch] (lines 481-550). *)
Definition handle_option (st : parse_state) (t : option_token)
  : parse_result :=
  match t with
  | Flag_h => Exited 0
  | Flag_i optarg => case_i optarg st
  | Flag_l optarg => case_l optarg st
  | Flag_P optarg => case_P optarg st
  | Flag_p optarg => case_p (Some optarg) st
  | Flag_t optarg => case_t optarg st
  | Flag_v =>
    Parsed
      (ParseState (interfaces st) (servers st) (num_interfaces st)
         (num_servers st) (interface_server_count st) (verbosity st + 1)
         (ifnetmap_count st) (ifpcap_count st))
  | Flag_unknown => Exited 1
  | Flag_other _ => Exited 1
  end.

(** The [while] loop (line 480), from state [st]. *)
Fixpoint parse_from (st : parse_state) (tokens : list option_token)
  : parse_result :=
  match tokens with
  | [] => Parsed st
  | t :: rest =>
    match handle_option st t with
    | Parsed st' => parse_from st' rest
    | r => r
    end
  end.

Definition parse_options (tokens : list option_token) : parse_result :=
  parse_from initial_state tokens.

(** The entries of the two arrays that the later loops of [main] visit. *)
Definition configured_interfaces (st : parse_state) : list interface_config :=
  take (num_interfaces st) (interfaces st).

Definition configured_servers (st : parse_state) : list server_config :=
  take (num_servers st) (servers st).

(** Lines 552-563 and what follows: with at least one interface and one
    listen address, [main] goes on to validation and provisioning.  [None] is
    a fault during option parsing. *)
Definition main_startup (uinet_inet_pton : string → option Z)
    (UINET_INADDR_ANY : Z) (alias_text : string → Z → string)
    (loop_new : nat → option nat) (envs : nat → Listener.listen_env)
    (tokens : list option_token)
  : option (Z + list Startup.startup_call * Env.world) :=
  match parse_options tokens with
  | Faulted => None
  | Exited status => Some (inl status)
  | Parsed st =>
    if num_interfaces st <? 1 then Some (inl 1%Z)
    else if num_servers st <? 1 then Some (inl 1%Z)
    else
      Some
        (Startup.startup uinet_inet_pton UINET_INADDR_ANY alias_text loop_new
           envs (verbosity st) (configured_interfaces st)
           (configured_servers st))
  end.

End Parse.

(** What the loop keeps true of its variables: the arrays keep their sizes,
    the counters stay within them, every server recorded so far points at an
    interface recorded so far, and the capture domain of interface [k] is
    [k + 1]. *)
Record well_formed_state (st : parse_state) : Prop := WellFormedState {
  wf_interfaces : length (interfaces st) = MAX_INTERFACES;
  wf_servers : length (servers st) = MAX_SERVERS;
  wf_num_interfaces : num_interfaces st ≤ MAX_INTERFACES;
  wf_num_servers : num_servers st ≤ MAX_SERVERS;
  wf_count : interface_server_count st ≤ num_servers st;
  wf_owner : ∀ i s, i < num_servers st → servers st !! i = Some s →
                    interface s < num_interfaces st;
  wf_cdom : ∀ k ifc, k < num_interfaces st → interfaces st !! k = Some ifc →
                     cdom ifc = (Z.of_nat k + 1)%Z
}.

(** The arguments of the [-i] options, and of the [-l] options, in the order
    given. *)
Definition named_interfaces (tokens : list option_token) : list string :=
  omap (λ t, match t with Flag_i a => Some a | _ => None end) tokens.

Definition listen_addresses (tokens : list option_token) : list string :=
  omap (λ t, match t with Flag_l a => Some a | _ => None end) tokens.

(** For each [-l] option, the number of [-i] options before it, less one;
    [seen] is the number of [-i] options already behind. *)
Fixpoint owners (seen : nat) (tokens : list option_token) : list nat :=
  match tokens with
  | [] => []
  | Flag_i _ :: rest => owners (S seen) rest
  | Flag_l _ :: rest => (seen - 1) :: owners seen rest
  | _ :: rest => owners seen rest
  end.

(** No [-P] among the options. *)
Definition no_flag_P (tokens : list option_token) : Prop :=
  Forall (λ t, match t with Flag_P _ => False | _ => True end) tokens.

(** A command line: [-i em0 -l 10.0.0.1 -p 80 -i em1 -t pcap -l 0.0.0.0
    -p 0 -v]. *)
Definition sample_tokens : list option_token :=
  [Flag_i "em0"; Flag_l "10.0.0.1"; Flag_p "80"; Flag_i "em1"; Flag_t "pcap";
   Flag_l "0.0.0.0"; Flag_p "0"; Flag_v].

(** A [strtoul] that knows the two numbers of [sample_tokens]. *)
Definition sample_strtoul (s : string) : Z :=
  if String.eqb s "80" then 80%Z else 0%Z.

Definition sample_junk_interface : interface_config :=
  InterfaceConfig "" "" 0 None 0 0 0 "".

Definition sample_junk_server : server_config :=
  ServerConfig "" 0 0 0 None 0.

(** The constants of uinet_api.h, for the samples. *)
Definition sample_netmap : Z := 1.
Definition sample_pcap : Z := 2.

(** The state in which the loop leaves [main] on [sample_tokens]. *)
Definition sample_state : parse_state :=
  match
    parse_options sample_strtoul sample_netmap sample_pcap
      sample_junk_interface sample_junk_server sample_tokens
  with
  | Parsed st => st
  | _ => initial_state sample_netmap sample_junk_interface sample_junk_server
  end.

(** [main] on [sample_tokens], with event loops for the two interfaces and a
    transport that refuses nothing. *)
Definition sample_run : option (Z + list Startup.startup_call * Env.world) :=
  main_startup sample_strtoul sample_netmap sample_pcap sample_junk_interface
    sample_junk_server sample_pton 0 Checks.sample_alias Checks.two_loops
    (λ _, Listener.obliging) sample_tokens.

Definition sample_log : list Startup.startup_call :=
  match sample_run with
  | Some r => Checks.log_of r
  | None => []
  end.

Definition sample_final_world : Env.world :=
  match sample_run with
  | Some r => Checks.world_of r
  | None => Env.empty_world
  end.

End Options.

(** * Properties *)

(** ** The renderer *)

Section RendererFacts.
Import Renderer.

Lemma is_printable_not_nul b : is_printable b = true → b ≠ NUL.
Proof. intros H ->. discriminate H. Qed.

Lemma until_nul_app_nul p r :
  Forall (λ c, c ≠ NUL) p → until_nul (p ++ NUL :: r) = p.
Proof.
  induction 1 as [|c p Hc _ IH]; simpl.
  - reflexivity.
  - destruct (Ascii.eqb_spec c NUL) as [->|_]; [done|]. by rewrite IH.
Qed.

Lemma render_loop_S st n :
  render_loop st (S n) = render_step (render_loop st n) n.
Proof. unfold render_loop. by rewrite seq_S, fold_left_app. Qed.

(** Terminating the buffer at [i] and printing from [i - k] shows exactly the
    [k] printable bytes before [i]. *)
Lemma cstr_run (buf : list ascii) i k :
  i < length buf → k ≤ i →
  Forall (λ c, is_printable c = true) (take k (drop (i - k) buf)) →
  cstr (<[i := NUL]> buf) (i - k) = take k (drop (i - k) buf).
Proof.
  intros Hi Hk Hp. unfold cstr.
  rewrite insert_take_drop by done.
  rewrite drop_app_le by (rewrite length_take; lia).
  replace (drop (i - k) (take i buf)) with (take k (drop (i - k) buf)).
  2:{ rewrite take_drop_commute. do 2 f_equal. lia. }
  apply until_nul_app_nul.
  eapply Forall_impl; [exact Hp|]. intros c. apply is_printable_not_nul.
Qed.

(** The two counters stay below the loop index, so the C [int]s that hold
    them cannot overflow for a span shorter than [BUFFER_SIZE]. *)
Lemma render_counters_bounded st n :
  printable (render_loop st n) + skipped (render_loop st n)
  ≤ printable st + skipped st + n.
Proof.
  induction n as [|n IH]; [unfold render_loop; simpl; lia|].
  rewrite render_loop_S. revert IH.
  generalize (render_loop st n) as r. intros r IH. unfold render_step.
  destruct (is_printable _); [simpl; lia|].
  destruct (print_threshold <=? _); simpl; lia.
Qed.

(** No iteration lowers [skipped]: printing a marker leaves the count as it
    is. *)
Lemma render_step_keeps_skipped st i :
  skipped st ≤ skipped (render_step st i).
Proof.
  unfold render_step. destruct (is_printable _); [simpl; lia|].
  destruct (print_threshold <=? _); simpl; lia.
Qed.

Lemma render_loop_all_printable (buf : list ascii) n :
  (∀ i b, i < n → buf !! i = Some b → is_printable b = true) →
  n ≤ length buf →
  render_loop (RState buf 0 0 []) n = RState buf n 0 [].
Proof.
  induction n as [|n IH]; intros Hp Hn; [reflexivity|].
  rewrite render_loop_S, IH by (intros; eauto with lia).
  destruct (lookup_lt_is_Some_2 buf n) as [b Hb]; [lia|].
  unfold render_step; simpl. rewrite Hb; simpl.
  rewrite (Hp n b) by (done || lia). f_equal. lia.
Qed.

Lemma render_loop_none_printable (buf : list ascii) n :
  (∀ i b, i < n → buf !! i = Some b → is_printable b = false) →
  n ≤ length buf →
  render_loop (RState buf 0 0 []) n = RState buf 0 n [].
Proof.
  induction n as [|n IH]; intros Hp Hn; [reflexivity|].
  rewrite render_loop_S, IH by (intros; eauto with lia).
  destruct (lookup_lt_is_Some_2 buf n) as [b Hb]; [lia|].
  unfold render_step; simpl. rewrite Hb; simpl.
  rewrite (Hp n b) by (done || lia). simpl. f_equal. lia.
Qed.

Lemma lookup_terminated (buf : list ascii) L i b :
  i < L → <[L := NUL]> buf !! i = Some b → take L buf !! i = Some b.
Proof.
  intros Hi. rewrite list_lookup_insert_ne by lia.
  by rewrite lookup_take_lt.
Qed.

Lemma fold_step_printable st i l b :
  buffer st !! i = Some b → is_printable b = true →
  fold_left render_step (i :: l) st =
  fold_left render_step l
    (RState (buffer st) (printable st + 1) (skipped st) (out st)).
Proof.
  intros Hb Hp. simpl. unfold render_step at 2.
  by rewrite Hb; simpl; rewrite Hp.
Qed.

Lemma fold_step_nonprintable st i l b :
  buffer st !! i = Some b → is_printable b = false →
  fold_left render_step (i :: l) st =
  fold_left render_step l
    (if print_threshold <=? printable st then
       RState (<[i := NUL]> (buffer st)) 0 (skipped st + 1)
         (flush_marker (skipped st) (out st)
            ++ [Text (cstr (<[i := NUL]> (buffer st)) (i - printable st))])
     else RState (buffer st) 0 (skipped st + printable st + 1) (out st)).
Proof.
  intros Hb Hp. simpl. unfold render_step at 2.
  by rewrite Hb; simpl; rewrite Hp.
Qed.

Ltac step_printable :=
  erewrite fold_step_printable by reflexivity;
  cbn [buffer printable skipped out Nat.add].

Ltac step_nonprintable :=
  erewrite fold_step_nonprintable by (reflexivity || eassumption);
  cbn [buffer printable skipped out Nat.add Nat.leb print_threshold].

(** C2 (evaluation at the failing input).  Two printable runs of ten bytes,
    each followed by one non-printable byte: the loop prints the first run,
    then [<1>] and the second run, and the end-of-span flush prints [<2>].
    The marker count is never reset, so the second marker counts the first
    skipped byte again: the markers are 1 and 2, not 1 and 1, and they sum to
    3 for 2 skipped bytes. *)
Theorem render_marker_counts_accumulate :
  let span := bytes "AAAAAAAAAA" ++ [NUL] ++ bytes "BBBBBBBBBB" ++ [NUL] in
  markers (render (span ++ [NUL]) 22) = [1; 2]
  ∧ string_of_list_ascii (rendered (render (span ++ [NUL]) 22))
    = "AAAAAAAAAA<1>BBBBBBBBBB<2>"%string
  ∧ length (filter (λ b, is_printable b = false) span) = 2.
Proof. repeat split; vm_compute; reflexivity. Qed.

(** C6.  A buffer that starts with ten bytes "A", three non-printable bytes
    and "BB", rendered over these 15 bytes, prints [AAAAAAAAAA<3>BB]: the
    trailing run of two is printed although it is shorter than the
    threshold. *)
Theorem render_scenario (buf : list ascii) (b1 b2 b3 : ascii) :
  is_printable b1 = false → is_printable b2 = false →
  is_printable b3 = false →
  take 15 buf = bytes "AAAAAAAAAA" ++ [b1; b2; b3] ++ bytes "BB" →
  15 < length buf →
  string_of_list_ascii (rendered (render buf 15)) = "AAAAAAAAAA<3>BB"%string.
Proof.
  intros H1 H2 H3 Hspan Hlen.
  rewrite <- (take_drop 15 buf) in Hlen |- *. rewrite Hspan in Hlen |- *.
  destruct (drop 15 buf) as [|c rest]; [simpl in Hlen; lia|].
  clear Hspan Hlen. unfold render, render_loop. cbn [seq].
  do 10 step_printable.
  do 3 step_nonprintable.
  do 2 step_printable.
  reflexivity.
Qed.

Lemma render_scenario_witness :
  string_of_list_ascii
    (rendered
       (render
          (bytes "AAAAAAAAAA"
             ++ [ascii_of_nat 0; ascii_of_nat 1; ascii_of_nat 255]
             ++ bytes "BB?") 15))
  = "AAAAAAAAAA<3>BB"%string.
Proof.
  apply (render_scenario _ (ascii_of_nat 0) (ascii_of_nat 1) (ascii_of_nat 255));
    try reflexivity.
  simpl. lia.
Defined.

(** C7.  Over a span of [L] bytes that are all printable the renderer prints
    the span itself and no marker; over a span of [L >= 1] bytes none of
    which is printable it prints [<L>] and nothing else.  (The read handler
    renders spans of 1 to 65535 bytes; [L] is below the buffer's size.) *)
Theorem render_uniform_spans (buf : list ascii) (L : nat) :
  L < length buf →
  (Forall (λ b, is_printable b = true) (take L buf) →
     rendered (render buf L) = take L buf ∧ markers (render buf L) = [])
  ∧ (0 < L → Forall (λ b, is_printable b = false) (take L buf) →
     rendered (render buf L) = "<"%char :: dec L ++ [">"%char]).
Proof.
  intros HL. split.
  - intros Hp. unfold render.
    rewrite render_loop_all_printable.
    + simpl. rewrite (cstr_run _ L L).
      * rewrite Nat.sub_diag, drop_0, take_insert_ge by lia.
        split; [unfold rendered; simpl; by rewrite app_nil_r|done].
      * rewrite length_insert. lia.
      * lia.
      * by rewrite Nat.sub_diag, drop_0, take_insert_ge by lia.
    + intros i b Hi Hb. apply lookup_terminated in Hb; [|done].
      rewrite Forall_lookup in Hp. eauto.
    + rewrite length_insert. lia.
  - intros Hpos Hn. unfold render.
    rewrite render_loop_none_printable.
    + simpl. destruct L as [|L']; [lia|]. simpl flush_marker.
      rewrite Nat.sub_0_r. unfold cstr.
      rewrite list_insert_insert_eq.
      rewrite insert_take_drop by lia.
      rewrite drop_app_length' by (rewrite length_take; lia).
      unfold rendered; simpl. by rewrite app_nil_r.
    + intros i b Hi Hb. apply lookup_terminated in Hb; [|done].
      rewrite Forall_lookup in Hn. eauto.
    + rewrite length_insert. lia.
Qed.

Lemma render_uniform_spans_witness :
  (rendered (render (bytes "GET / HTTP/1.1" ++ [NUL]) 14)
     = bytes "GET / HTTP/1.1"
   ∧ markers (render (bytes "GET / HTTP/1.1" ++ [NUL]) 14) = [])
  ∧ rendered (render (replicate 12 (ascii_of_nat 200) ++ [NUL]) 12)
     = bytes "<12>".
Proof.
  split.
  - apply (render_uniform_spans (bytes "GET / HTTP/1.1" ++ [NUL]) 14).
    + simpl. lia.
    + simpl. repeat constructor.
  - apply (render_uniform_spans (replicate 12 (ascii_of_nat 200) ++ [NUL]) 12).
    + simpl. lia.
    + lia.
    + simpl. repeat constructor.
Defined.

End RendererFacts.

(** ** The read handler *)

Section ReadHandlerFacts.
Import Env ReadHandler.
Local Open Scope Z_scope.

Lemma read_size_min ev : read_size ev = Z.min (max_read ev) (64 * 1024 - 1).
Proof.
  unfold read_size, imin, BUFFER_SIZE.
  destruct (Z.ltb_spec (max_read ev) (64 * 1024 - 1)); lia.
Qed.

Lemma read_size_pos ev : successful ev → 0 < read_size ev.
Proof. intros (Hpos & _). rewrite read_size_min. lia. Qed.

Lemma total_read_cons ev evs :
  total_read (ev :: evs) = read_size ev + total_read evs.
Proof. reflexivity. Qed.

Lemma total_read_nonneg evs : Forall successful evs → 0 ≤ total_read evs.
Proof.
  induction 1 as [|ev evs Hev _ IH]; [done|].
  rewrite total_read_cons. apply read_size_pos in Hev. lia.
Qed.

Lemma total_read_app evs1 evs2 :
  total_read (evs1 ++ evs2) = total_read evs1 + total_read evs2.
Proof.
  induction evs1 as [|ev evs1 IH]; [done|].
  rewrite <- app_comm_cons, !total_read_cons, IH. lia.
Qed.

(** Successive prefixes of a run of successful reads request more and more. *)
Lemma total_read_take_mono evs j k :
  Forall successful evs → (j ≤ k)%nat →
  total_read (take j evs) ≤ total_read (take k evs).
Proof.
  intros Hs Hjk.
  replace k with (j + (k - j))%nat by lia.
  rewrite <- take_take_drop, total_read_app.
  assert (0 ≤ total_read (take (k - j) (drop j evs))); [|lia].
  apply total_read_nonneg. by apply Forall_take, Forall_drop.
Qed.

Lemma receive_successful w c conn ev :
  conns w !! c = Some conn → successful ev →
  ∃ log, passive_receive_cb w c ev
         = Returned (store_conn c (add_bytes_read conn (read_size ev)) w, log).
Proof.
  intros Hc (Hpos & Herr & Hres). unfold passive_receive_cb.
  rewrite Hc, Herr, Hres.
  destruct (Z.leb_spec (max_read ev) 0); [lia|]. simpl. eauto.
Qed.

(** When the handler returns and the record is still there, the receive was
    fully satisfied and the counter grew by the read size, modulo 2^64. *)
Lemma receive_updates_only_on_success w c conn ev w' log n :
  conns w !! c = Some conn →
  passive_receive_cb w c ev = Returned (w', log) →
  counter w' c = Some n →
  successful ev ∧ n = (bytes_read conn + read_size ev) mod 2 ^ 64.
Proof.
  intros Hc. unfold passive_receive_cb, counter. rewrite Hc.
  destruct (Z.leb_spec (max_read ev) 0) as [Hle|Hgt].
  - destruct (max_read ev =? 0); [done|].
    intros [= <- _]. simpl. by rewrite lookup_delete_eq.
  - destruct (Z.eqb_spec (recv_error ev) 0) as [He|He]; simpl.
    + destruct (Z.eqb_spec (recv_resid ev) 0) as [Hr|Hr]; simpl; [|done].
      intros [= <- _]. simpl. rewrite lookup_insert_eq. simpl.
      intros [= <-]. done.
    + intros [= <- _]. simpl. by rewrite lookup_delete_eq.
Qed.

Lemma run_reads_counter evs : ∀ w c conn,
  conns w !! c = Some conn → 0 ≤ bytes_read conn →
  Forall successful evs →
  bytes_read conn + total_read evs < 2 ^ 64 →
  ∃ w' log, run_reads w c evs = Returned (w', log)
            ∧ counter w' c = Some (bytes_read conn + total_read evs).
Proof.
  induction evs as [|ev evs IH]; intros w c conn Hc H0 Hs Hlt.
  - exists w, []. split; [done|]. unfold counter. rewrite Hc. simpl.
    f_equal. unfold total_read. simpl. lia.
  - apply Forall_cons in Hs as [Hev Hs].
    destruct (receive_successful w c conn ev Hc Hev) as [log Hstep].
    pose proof (total_read_nonneg evs Hs) as Hnn.
    pose proof (read_size_pos ev Hev) as Hsz.
    rewrite total_read_cons in *.
    assert (Hbr : bytes_read (add_bytes_read conn (read_size ev))
                  = bytes_read conn + read_size ev).
    { simpl. apply Z.mod_small. lia. }
    destruct (IH (store_conn c (add_bytes_read conn (read_size ev)) w) c
                (add_bytes_read conn (read_size ev)))
      as (w' & log' & Hrun & Hcnt).
    + simpl. by rewrite lookup_insert_eq.
    + rewrite Hbr. lia.
    + done.
    + rewrite Hbr. lia.
    + exists w', (log ++ log'). simpl. rewrite Hstep, Hrun. split; [done|].
      rewrite Hcnt, Hbr. f_equal. lia.
Qed.

(** C5.  A Connection starts with a zeroed counter.  Over [N] successful
    reads whose sizes, each min(available, 64*1024 - 1), add up to less than
    2^64 (the counter is a [uint64_t]): after every prefix of the run the
    counter is the sum of the sizes read so far, hence the sum of all [N] at
    the end; these sums never decrease; and whenever the handler returns with
    the record still alive, the receive reported no error and residual 0,
    which is the only case in which the counter is written. *)
Theorem bytes_read_counts (w : world) (c : ptr) (conn : connection_context)
    (evs : list read_event) :
  conns w !! c = Some conn →
  bytes_read conn = 0 →
  Forall successful evs →
  total_read evs < 2 ^ 64 →
  (∀ ev, read_size ev = Z.min (max_read ev) (64 * 1024 - 1))
  ∧ (∀ k, ∃ w' log,
        run_reads w c (take k evs) = Returned (w', log)
        ∧ counter w' c = Some (total_read (take k evs)))
  ∧ (∃ w' log,
        run_reads w c evs = Returned (w', log)
        ∧ counter w' c = Some (total_read evs))
  ∧ (∀ j k, (j ≤ k)%nat →
        total_read (take j evs) ≤ total_read (take k evs))
  ∧ (∀ w1 conn1 ev w2 log n,
        conns w1 !! c = Some conn1 →
        passive_receive_cb w1 c ev = Returned (w2, log) →
        counter w2 c = Some n →
        (0 < max_read ev ∧ recv_error ev = 0 ∧ recv_resid ev = 0)
        ∧ n = (bytes_read conn1 + read_size ev) mod 2 ^ 64).
Proof.
  intros Hc Hz Hs Hlt.
  assert (Hprefix : ∀ k, ∃ w' log,
             run_reads w c (take k evs) = Returned (w', log)
             ∧ counter w' c = Some (total_read (take k evs))).
  { intros k.
    destruct (run_reads_counter (take k evs) w c conn) as (w' & log & Hr & Hn).
    - done.
    - lia.
    - by apply Forall_take.
    - rewrite Hz.
      pose proof (total_read_take_mono evs k (length evs) Hs) as Hm.
      destruct (Nat.le_gt_cases k (length evs)) as [Hk|Hk].
      + specialize (Hm Hk). rewrite firstn_all in Hm. lia.
      + rewrite take_ge by lia. lia.
    - exists w', log. split; [done|]. rewrite Hn, Hz. f_equal. }
  split; [apply read_size_min|].
  split; [exact Hprefix|].
  split.
  { destruct (Hprefix (length evs)) as (w' & log & Hr & Hn).
    rewrite firstn_all in Hr, Hn. eauto. }
  split; [intros j k; by apply total_read_take_mono|].
  intros w1 conn1 ev w2 log n H1 H2 H3.
  by apply (receive_updates_only_on_success w1 c conn1 ev w2 log n).
Qed.

Lemma bytes_read_counts_witness :
  ∃ w' log,
    run_reads sample_world 7%nat [ReadEvent 100 0 0 []; ReadEvent 70000 0 0 []]
    = Returned (w', log)
    ∧ counter w' 7%nat = Some 65635.
Proof.
  pose (evs := [ReadEvent 100 0 0 []; ReadEvent 70000 0 0 []]).
  assert (Hc : conns sample_world !! (7%nat : ptr) = Some sample_conn)
    by reflexivity.
  assert (Hs : Forall successful evs).
  { repeat constructor; simpl; lia. }
  assert (Hlt : total_read evs < 2 ^ 64) by (vm_compute; reflexivity).
  exact (proj1 (proj2 (proj2
           (bytes_read_counts sample_world 7%nat _ evs Hc eq_refl Hs Hlt)))).
Defined.

(** C3 (the claim as stated fails).  With zero bytes available the handler
    does not tear the Connection down: [assert(max_read != 0)] fails and the
    process aborts. *)
Lemma receive_zero_available_aborts :
  ¬ (∀ (w : world) (c : ptr) (conn : connection_context) (ev : read_event),
        conns w !! c = Some conn → max_read ev = 0 →
        ∃ log, passive_receive_cb w c ev = Returned (teardown c conn w, log)).
Proof.
  intros H.
  destruct (H sample_world 7%nat sample_conn (ReadEvent 0 0 0 [])
              eq_refl eq_refl) as [log Hlog].
  discriminate Hlog.
Qed.

(** C3 (amended).  A negative availability result closes this Connection and
    nothing else: the handler returns after stopping the watcher, closing the
    socket and freeing the record, and every other record, watcher and socket
    is as before.  A zero result fails the handler's assertion and aborts the
    process. *)
Theorem receive_unavailable (w : world) (c : ptr) (conn : connection_context)
    (ev : read_event) :
  conns w !! c = Some conn →
  (max_read ev < 0 →
     ∃ w', passive_receive_cb w c ev = Returned (w', [LogCantRead (label conn)])
       ∧ w' = teardown c conn w
       ∧ (c ∉ watchers w') ∧ (watcher_so conn ∉ sockets w')
       ∧ conns w' !! c = None
       ∧ (∀ c', c' ≠ c →
            conns w' !! c' = conns w !! c'
            ∧ (c' ∈ watchers w' ↔ c' ∈ watchers w))
       ∧ (∀ s, s ≠ watcher_so conn → (s ∈ sockets w' ↔ s ∈ sockets w)))
  ∧ (max_read ev = 0 → passive_receive_cb w c ev = Aborted).
Proof.
  intros Hc. split.
  - intros Hneg. exists (teardown c conn w).
    unfold passive_receive_cb. rewrite Hc.
    destruct (Z.leb_spec (max_read ev) 0) as [_|Hgt]; [|lia].
    destruct (Z.eqb_spec (max_read ev) 0) as [Hz|_]; [lia|].
    clear Hneg Hc.
    split; [done|]. split; [done|]. simpl.
    split; [set_solver|]. split; [set_solver|].
    split; [apply lookup_delete_eq|].
    split.
    + intros c' Hne. rewrite lookup_delete_ne by done. set_solver.
    + intros s Hne. set_solver.
  - intros Hz. unfold passive_receive_cb. rewrite Hc, Hz. reflexivity.
Qed.

Lemma receive_unavailable_witness :
  (∃ w', passive_receive_cb sample_world 7%nat (ReadEvent (-1) 0 0 [])
         = Returned (w', [LogCantRead "SERVER"])
     ∧ w' = teardown 7%nat sample_conn sample_world)
  ∧ passive_receive_cb sample_world 7%nat (ReadEvent 0 0 0 []) = Aborted.
Proof.
  split.
  - destruct (proj1 (receive_unavailable sample_world 7%nat sample_conn
                       (ReadEvent (-1) 0 0 []) eq_refl) eq_refl)
      as (w' & Hrun & Hw' & _).
    exists w'. exact (conj Hrun Hw').
  - exact (proj2 (receive_unavailable sample_world 7%nat sample_conn
                    (ReadEvent 0 0 0 []) eq_refl) eq_refl).
Defined.

End ReadHandlerFacts.

(** ** The acceptor *)

Section AcceptorFacts.
Import Env Acceptor.

Variable inet_ntoa_text : in_addr → string.

(** Whatever the order of evaluation, both [%s] fields of a label show the
    same text: the one the formatter wrote into [buf1] last. *)
Lemma format_label_one_address tag sin1 sin2 ord m :
  ∃ a, (a = inet_ntoa_text (sin_addr sin1) ∨ a = inet_ntoa_text (sin_addr sin2))
    ∧ fst (format_label inet_ntoa_text tag sin1 sin2 ord m)
      = snprintf 64
          (tag +:+ " (" +:+ a +:+ ":" +:+ dec (ntohs (sin_port sin1))
           +:+ " <- " +:+ a +:+ ":" +:+ dec (ntohs (sin_port sin2)) +:+ ")").
Proof.
  destruct ord; simpl.
  - exists (inet_ntoa_text (sin_addr sin2)). auto.
  - exists (inet_ntoa_text (sin_addr sin1)). auto.
Qed.

(** The sibling path: when the first record cannot be allocated the handler
    does roll back, and the world is as it was before the event. *)
Lemma accept_cb_first_alloc_failure w passive e so :
  accepted e = Some so → attach_ok e = true → peer_attach_ok e = true →
  conn_alloc e = None →
  so ∉ sockets w → so ∉ attached w →
  passive_peer e ∉ sockets w → passive_peer e ∉ attached w →
  ∃ w', accept_cb inet_ntoa_text w passive e = Returned w'
    ∧ sockets w' = sockets w ∧ attached w' = attached w
    ∧ watchers w' = watchers w ∧ conns w' = conns w.
Proof.
  intros Ha Hok Hpok Hc Hs1 Hs2 Hp1 Hp2.
  unfold accept_cb. rewrite Ha. unfold ev_uinet_attach. rewrite Hok, Hpok, Hc.
  eexists. split; [reflexivity|]. simpl.
  repeat split; set_solver.
Qed.

(** When the second record cannot be allocated the handler goes on: it
    starts the first Connection and then writes the peer's label through the
    NULL pointer, with both sockets still open and attached. *)
Lemma accept_cb_second_alloc_failure w passive e so p :
  accepted e = Some so → attach_ok e = true → peer_attach_ok e = true →
  conn_alloc e = Some p → peerconn_alloc e = None →
  ∃ w', accept_cb inet_ntoa_text w passive e = Fault w'
    ∧ p ∈ watchers w' ∧ is_Some (conns w' !! p)
    ∧ so ∈ sockets w' ∧ so ∈ attached w'
    ∧ passive_peer e ∈ sockets w' ∧ passive_peer e ∈ attached w'.
Proof.
  intros Ha Hok Hpok Hc Hpc.
  unfold accept_cb. rewrite Ha. unfold ev_uinet_attach. rewrite Hok, Hpok, Hc, Hpc.
  unfold start_side.
  destruct (format_label _ _ _ _ _ _) as [lbl m'].
  eexists. split; [reflexivity|]. simpl.
  rewrite lookup_insert_eq. repeat split; (by eexists) || set_solver.
Qed.

End AcceptorFacts.

Section AcceptorEvaluation.
Import Env Acceptor.

(** C1 (evaluation at the failing input).  The accept, both attachments and
    the first [calloc] succeed and the second [calloc] returns NULL.  Line 242
    tests [conn] again instead of [peerconn], so nothing is rolled back: the
    handler starts the first Connection and faults on [peerconn->label].  One
    Connection is then alive, record 10 with its watcher registered, and both
    new sockets, 5 and 6, are still open and attached. *)
Theorem accept_cb_second_calloc_null :
  ∃ w',
    accept_cb dotted_quad listening_world sample_passive
      (sample_accept LeftToRight None) = Fault w'
    ∧ w' = World {[1; 5; 6]} {[1; 5; 6]} {[2; 10]}
             {[10 := ConnectionContext
                       "SERVER (10.0.0.2:80 <- 10.0.0.2:51000)" 5
                       sample_passive 0]}
             {[2 := sample_passive]} []
    ∧ live_connections w' = 1.
Proof.
  eexists. split; [vm_compute; reflexivity|].
  split; vm_compute; reflexivity.
Qed.

(** C4 (evaluation at the failing input).  For the flow between
    192.168.1.1:80 and 10.0.0.2:51000 the two labels do not show a local and
    a remote address.  Both formatter calls of a label write into [buf1], so
    both address fields show one address: the remote one when the arguments
    are evaluated left to right, the local one otherwise.  The ports and the
    tags are as claimed. *)
Theorem accept_cb_labels_repeat_address :
  (∃ w', accept_cb dotted_quad listening_world sample_passive
           (sample_accept LeftToRight (Some 11)) = Returned w'
     ∧ label <$> conns w' !! 10
       = Some "SERVER (10.0.0.2:80 <- 10.0.0.2:51000)"%string
     ∧ label <$> conns w' !! 11
       = Some "CLIENT (192.168.1.1:51000 <- 192.168.1.1:80)"%string)
  ∧ (∃ w', accept_cb dotted_quad listening_world sample_passive
             (sample_accept RightToLeft (Some 11)) = Returned w'
       ∧ label <$> conns w' !! 10
         = Some "SERVER (192.168.1.1:80 <- 192.168.1.1:51000)"%string
       ∧ label <$> conns w' !! 11
         = Some "CLIENT (10.0.0.2:51000 <- 10.0.0.2:80)"%string).
Proof.
  split; (eexists; split; [vm_compute; reflexivity|]); by split.
Qed.

End AcceptorEvaluation.

(** ** Listener construction *)

Section ListenerFacts.
Import Env Listener.

Variable uinet_inet_pton : string → option Z.
Variable e : listen_env.

Ltac run_step :=
  unfold create_passive, body, parse_address, uinet_socreate, ev_uinet_attach,
    uinet_sosetnonblocking, uinet_sosetsockopt, malloc_passive,
    start_listen_watcher, checked, mbind, M_bind, mret, M_ret;
  simpl.

Lemma remove_added (x : nat) (X : gset nat) :
  x ∉ X → ({[x]} ∪ X) ∖ {[x]} = X.
Proof. set_solver. Qed.

Ltac released :=
  unfold same_resources; simpl;
  repeat split;
  first [reflexivity | by apply remove_added | by apply delete_insert_id].

Lemma create_passive_cases (w : world) (ifc : Config.interface_config)
    (cfg : Config.server_config) :
  let so := socreate_so e in
  so ∉ sockets w → so ∉ attached w →
  (∀ p, malloc_result e = Some p → passives w !! p = None) →
  match create_passive uinet_inet_pton e w ifc cfg with
  | (Some p, w') =>
      all_steps_succeed uinet_inet_pton e ifc cfg
      ∧ calls w' =
          calls w ++ [MakePassive so]
          ++ (if (Config.promisc ifc =? 0)%Z then []
              else [MakePromiscuous so (Config.cdom ifc)])
          ++ [SetNonblocking so 1; SetSockOpt so TCP_NODELAY 1;
              SetSockOpt so TCP_KEEPINIT 5; SetSockOpt so TCP_KEEPIDLE 1;
              SetSockOpt so TCP_KEEPINTVL 1; SetSockOpt so TCP_KEEPCNT 5;
              SetSockOpt so TCP_REASSDL 2]
          ++ [Bind so (Config.listen_port cfg); Listen so (-1)]
  | (None, w') =>
      ¬ all_steps_succeed uinet_inet_pton e ifc cfg ∧ same_resources w w'
  end.
Proof.
  intros so Hs Ha Hm. unfold all_steps_succeed. run_step.
  destruct (uinet_inet_pton (Config.listen_addr cfg)) as [addr|] eqn:Hpton; simpl;
    [|split; [intros (H & _); by destruct H|released]].
  destruct (Z.eqb_spec (socreate_error e) 0) as [Hcreate|Hcreate]; simpl;
    [|split; [tauto|released]].
  destruct (attach_ok e) eqn:Hattach; simpl;
    [|split; [intros (_ & _ & H & _); done|released]].
  destruct (Z.eqb_spec (make_passive_error e) 0) as [Hpassive|Hpassive]; simpl;
    [|split; [tauto|released]].
  assert (Hopts : ∀ P : Prop,
            (setsockopt_error e TCP_NODELAY = 0%Z →
             setsockopt_error e TCP_KEEPINIT = 0%Z →
             setsockopt_error e TCP_KEEPIDLE = 0%Z →
             setsockopt_error e TCP_KEEPINTVL = 0%Z →
             setsockopt_error e TCP_KEEPCNT = 0%Z →
             setsockopt_error e TCP_REASSDL = 0%Z → P) →
            (∀ opt, setsockopt_error e opt = 0%Z) → P) by auto.
  destruct (Z.eqb_spec (Config.promisc ifc) 0) as [Hpr|Hpr]; simpl;
    [|destruct (Z.eqb_spec (make_promiscuous_error e) 0) as [Hprom|Hprom]; simpl;
      [|split; [tauto|released]]].
  all: destruct (Z.eqb_spec (setsockopt_error e TCP_NODELAY) 0) as [H1|H1]; simpl;
    [|split; [intros (_ & _ & _ & _ & _ & H & _); by specialize (H TCP_NODELAY)|released]].
  all: destruct (Z.eqb_spec (setsockopt_error e TCP_KEEPINIT) 0) as [H2|H2]; simpl;
    [|split; [intros (_ & _ & _ & _ & _ & H & _); by specialize (H TCP_KEEPINIT)|released]].
  all: destruct (Z.eqb_spec (setsockopt_error e TCP_KEEPIDLE) 0) as [H3|H3]; simpl;
    [|split; [intros (_ & _ & _ & _ & _ & H & _); by specialize (H TCP_KEEPIDLE)|released]].
  all: destruct (Z.eqb_spec (setsockopt_error e TCP_KEEPINTVL) 0) as [H4|H4]; simpl;
    [|split; [intros (_ & _ & _ & _ & _ & H & _); by specialize (H TCP_KEEPINTVL)|released]].
  all: destruct (Z.eqb_spec (setsockopt_error e TCP_KEEPCNT) 0) as [H5|H5]; simpl;
    [|split; [intros (_ & _ & _ & _ & _ & H & _); by specialize (H TCP_KEEPCNT)|released]].
  all: destruct (Z.eqb_spec (setsockopt_error e TCP_REASSDL) 0) as [H6|H6]; simpl;
    [|split; [intros (_ & _ & _ & _ & _ & H & _); by specialize (H TCP_REASSDL)|released]].
  all: destruct (malloc_result e) as [p|] eqn:Hmalloc; simpl;
    [|split; [intros (_ & _ & _ & _ & _ & _ & H & _); by destruct H|released]].
  all: specialize (Hm p eq_refl).
  all: destruct (Z.eqb_spec (bind_error e) 0) as [Hbind|Hbind]; simpl;
    [|split; [tauto|released]].
  all: destruct (Z.eqb_spec (listen_error e) 0) as [Hlisten|Hlisten]; simpl;
    [|split; [tauto|released]].
  all: split;
    [repeat split; first [assumption | by eexists | by intros [] | done]
    |rewrite <- ?app_assoc; reflexivity].
Qed.

(** C9.  On a world in which the new socket and the new record are fresh:
    when every step succeeds, [create_passive] returns a listener, and the
    settings it has applied to the listener socket are, in order, passive
    (and promiscuous in the interface's capture domain when the interface
    asks for it), then exactly non-blocking 1, TCP_NODELAY 1, TCP_KEEPINIT 5,
    TCP_KEEPIDLE 1, TCP_KEEPINTVL 1, TCP_KEEPCNT 5 and TCP_REASSDL 2, then
    bind and listen with backlog -1; when any step fails, it returns NULL and
    the loop attachment, the socket and the record are released: the world
    holds what it held before the call. *)
Theorem create_passive_all_or_nothing (w : world)
    (ifc : Config.interface_config) (cfg : Config.server_config) :
  let so := socreate_so e in
  so ∉ sockets w → so ∉ attached w →
  (∀ p, malloc_result e = Some p → passives w !! p = None) →
  (all_steps_succeed uinet_inet_pton e ifc cfg →
     ∃ p w', create_passive uinet_inet_pton e w ifc cfg = (Some p, w')
       ∧ calls w' =
           calls w ++ [MakePassive so]
           ++ (if (Config.promisc ifc =? 0)%Z then []
               else [MakePromiscuous so (Config.cdom ifc)])
           ++ [SetNonblocking so 1; SetSockOpt so TCP_NODELAY 1;
               SetSockOpt so TCP_KEEPINIT 5; SetSockOpt so TCP_KEEPIDLE 1;
               SetSockOpt so TCP_KEEPINTVL 1; SetSockOpt so TCP_KEEPCNT 5;
               SetSockOpt so TCP_REASSDL 2]
           ++ [Bind so (Config.listen_port cfg); Listen so (-1)])
  ∧ (¬ all_steps_succeed uinet_inet_pton e ifc cfg →
     ∃ w', create_passive uinet_inet_pton e w ifc cfg = (None, w')
       ∧ same_resources w w').
Proof.
  intros so Hs Ha Hm.
  pose proof (create_passive_cases w ifc cfg Hs Ha Hm) as Hcases.
  destruct (create_passive uinet_inet_pton e w ifc cfg) as [[p|] w'].
  - destruct Hcases as [Hall Hcalls]. split; [eauto|tauto].
  - destruct Hcases as [Hnot Hsame]. split; [tauto|eauto].
Qed.

End ListenerFacts.

Section ListenerWitness.
Import Env Listener.

Lemma create_passive_all_or_nothing_witness :
  (∃ p w',
      create_passive Config.sample_pton obliging empty_world
        (Config.sample_interface 1)
        (Config.ServerConfig "10.0.0.1" 80%Z 0 1 None 0) = (Some p, w')
      ∧ calls w' =
          [MakePassive 4; MakePromiscuous 4 1; SetNonblocking 4 1;
           SetSockOpt 4 TCP_NODELAY 1; SetSockOpt 4 TCP_KEEPINIT 5;
           SetSockOpt 4 TCP_KEEPIDLE 1; SetSockOpt 4 TCP_KEEPINTVL 1;
           SetSockOpt 4 TCP_KEEPCNT 5; SetSockOpt 4 TCP_REASSDL 2;
           Bind 4 80; Listen 4 (-1)])
  ∧ (∃ w',
      create_passive Config.sample_pton bind_refused empty_world
        (Config.sample_interface 1)
        (Config.ServerConfig "10.0.0.1" 80%Z 0 1 None 0) = (None, w')
      ∧ same_resources empty_world w').
Proof.
  split.
  - apply (create_passive_all_or_nothing Config.sample_pton obliging
             empty_world (Config.sample_interface 1)
             (Config.ServerConfig "10.0.0.1" 80%Z 0 1 None 0)).
    + apply not_elem_of_empty.
    + apply not_elem_of_empty.
    + intros p _. apply lookup_empty.
    + repeat split; try reflexivity; by eexists.
  - apply (create_passive_all_or_nothing Config.sample_pton bind_refused
             empty_world (Config.sample_interface 1)
             (Config.ServerConfig "10.0.0.1" 80%Z 0 1 None 0)).
    + apply not_elem_of_empty.
    + apply not_elem_of_empty.
    + intros p _. apply lookup_empty.
    + intros (_ & _ & _ & _ & _ & _ & _ & Hbind & _). discriminate Hbind.
Defined.

End ListenerWitness.


(** ** Startup *)

Section StartupFacts.
Import Config Startup.

Variable uinet_inet_pton : string → option Z.
Variable UINET_INADDR_ANY : Z.
Variable alias_text : string → Z → string.

Local Abbreviation validate_server :=
  (validate_server uinet_inet_pton UINET_INADDR_ANY).
Local Abbreviation validate := (validate uinet_inet_pton UINET_INADDR_ANY).
Local Abbreviation create_interfaces := (create_interfaces alias_text).
Local Abbreviation create_passives := (create_passives uinet_inet_pton).
Local Abbreviation startup :=
  (startup uinet_inet_pton UINET_INADDR_ANY alias_text).

Lemma flagged_set_promisc_same k ifs :
  k < length ifs → flagged k (set_promisc k ifs).
Proof.
  intros Hk. destruct (lookup_lt_is_Some_2 ifs k Hk) as [ifc Hifc].
  unfold flagged. exists (with_promisc ifc). split; [|done].
  unfold set_promisc. by rewrite list_lookup_alter_eq, Hifc.
Qed.

Lemma flagged_set_promisc j k ifs :
  flagged k ifs → flagged k (set_promisc j ifs).
Proof.
  intros (ifc & Hifc & Hp). unfold flagged, set_promisc.
  destruct (decide (j = k)) as [->|Hne].
  - exists (with_promisc ifc). by rewrite list_lookup_alter_eq, Hifc.
  - exists ifc. by rewrite list_lookup_alter_ne.
Qed.

Lemma length_set_promisc k ifs : length (set_promisc k ifs) = length ifs.
Proof. apply length_alter. Qed.

Lemma validate_server_spec ifs s ifs1 s1 :
  validate_server ifs s = Some (ifs1, s1) →
  length ifs1 = length ifs
  ∧ (∀ k, flagged k ifs → flagged k ifs1)
  ∧ (listen_port s = 0%Z → interface s < length ifs → flagged (interface s) ifs1)
  ∧ (uinet_inet_pton (listen_addr s) = Some UINET_INADDR_ANY →
       interface s < length ifs →
       flagged (interface s) ifs1 ∧ addrany s1 = 1%Z)
  ∧ listen_addr s1 = listen_addr s ∧ interface s1 = interface s
  ∧ listen_port s1 = listen_port s.
Proof.
  unfold Startup.validate_server.
  destruct (listen_port s =? -1)%Z; [done|].
  destruct (_ || _)%bool; [done|].
  destruct (uinet_inet_pton (listen_addr s)) as [a|]; [|done].
  destruct (Z.eqb_spec (listen_port s) 0) as [Hp|Hp];
    destruct (Z.eqb_spec a UINET_INADDR_ANY) as [Ha|Ha];
    intros [= <- <-]; rewrite ?length_set_promisc.
  - split; [done|]. split; [intros k Hk; by do 2 apply flagged_set_promisc|].
    assert (interface s < length ifs →
            flagged (interface s)
              (set_promisc (interface s) (set_promisc (interface s) ifs))).
    { intros Hlt. apply flagged_set_promisc_same.
      by rewrite length_set_promisc. }
    repeat split; auto.
  - split; [done|]. split; [intros k Hk; by apply flagged_set_promisc|].
    split; [intros _ Hlt; by apply flagged_set_promisc_same|].
    split; [|done]. intros [= ->]. done.
  - split; [done|]. split; [intros k Hk; by apply flagged_set_promisc|].
    split; [done|].
    split; [|done]. intros _ Hlt. split; [|done].
    by apply flagged_set_promisc_same.
  - split; [done|]. split; [done|]. split; [done|].
    split; [|done]. intros [= ->]. done.
Qed.

Lemma validate_spec servers : ∀ ifs ifs' servers',
  validate ifs servers = Some (ifs', servers') →
  length ifs' = length ifs
  ∧ (∀ k, flagged k ifs → flagged k ifs')
  ∧ (∀ i s, servers !! i = Some s → interface s < length ifs →
       ∃ s', servers' !! i = Some s'
         ∧ listen_addr s' = listen_addr s ∧ interface s' = interface s
         ∧ listen_port s' = listen_port s
         ∧ (listen_port s = 0%Z → flagged (interface s) ifs')
         ∧ (uinet_inet_pton (listen_addr s) = Some UINET_INADDR_ANY →
              flagged (interface s) ifs' ∧ addrany s' = 1%Z)).
Proof.
  induction servers as [|s0 rest IH]; intros ifs ifs' servers'; simpl.
  - intros [= <- <-]. split; [done|]. split; [done|]. intros i s Hi. done.
  - destruct (validate_server ifs s0) as [[ifs1 s1]|] eqn:Hv; [|done].
    destruct (validate ifs1 rest) as [[ifs2 rest1]|] eqn:Hrest; [|done].
    intros [= <- <-].
    destruct (validate_server_spec _ _ _ _ Hv)
      as (Hlen1 & Hmono1 & Hport & Hany & Haddr & Hif & Hlp).
    destruct (IH _ _ _ Hrest) as (Hlen2 & Hmono2 & Hrec).
    split; [congruence|]. split; [auto|].
    intros [|i] s Hi Hlt; simpl in Hi.
    + injection Hi as ->. exists s1. simpl.
      repeat split; try done.
      * intros Hz. apply Hmono2. auto.
      * apply Hmono2. by apply Hany.
      * by apply Hany.
    + destruct (Hrec i s Hi) as (s' & Hs' & ?); [congruence|].
      exists s'. by split.
Qed.

(** The interface loop issues only [IfCreate] calls, each showing the flag
    and the capture domain of the entry it creates. *)
Lemma create_interfaces_calls loop_new todo : ∀ k0 c,
  c ∈ (create_interfaces loop_new k0 todo).1 →
  ∃ k ifc orig,
    c = IfCreate k ifc (if (promisc orig =? 0)%Z then 0%Z else cdom orig)
    ∧ k0 ≤ k ∧ todo !! (k - k0) = Some orig
    ∧ promisc ifc = promisc orig ∧ cdom ifc = cdom orig.
Proof.
  induction todo as [|ifc0 rest IH]; intros k0 c; simpl.
  - by intros ?%elem_of_nil.
  - destruct (loop_new k0) as [lp|].
    + destruct (create_interfaces loop_new (S k0) rest) as [cs rest'] eqn:Hrec.
      simpl. intros [->|Hin]%elem_of_cons.
      * eexists k0, _, ifc0. rewrite Nat.sub_diag.
        split; [reflexivity|]. by repeat split.
      * specialize (IH (S k0) c). rewrite Hrec in IH.
        destruct (IH Hin) as (k & ifc & orig & -> & Hle & Hlook & Hp & Hc).
        exists k, ifc, orig. repeat split; try done; [lia|].
        replace (k - k0) with (S (k - S k0)) by lia. done.
    + simpl. intros ->%list_elem_of_singleton.
      eexists k0, _, ifc0. rewrite Nat.sub_diag.
      split; [reflexivity|]. by repeat split.
Qed.

(** The interface loop leaves every promiscuity flag as it found it. *)
Lemma create_interfaces_flagged loop_new todo : ∀ k0 k,
  flagged k todo → flagged k (create_interfaces loop_new k0 todo).2.
Proof.
  induction todo as [|ifc0 rest IH]; intros k0 k (ifc & Hifc & Hp);
    [done|]. simpl.
  destruct k as [|k]; simpl in Hifc.
  - injection Hifc as ->.
    destruct (loop_new k0);
      [destruct (create_interfaces loop_new (S k0) rest)|];
      eexists; (split; [reflexivity|done]).
  - assert (Hrest : flagged k rest) by (by exists ifc).
    destruct (loop_new k0) as [lp|].
    + specialize (IH (S k0) k Hrest).
      destruct (create_interfaces loop_new (S k0) rest) as [cs rest'].
      exact IH.
    + exact Hrest.
Qed.

(** The alias loop issues only [AddAlias] calls, one for each server that is
    not marked address-any. *)
Lemma add_aliases_calls ifs servers : ∀ i0 c,
  c ∈ add_aliases ifs i0 servers →
  ∃ j s, (∃ al ad, c = AddAlias j al ad) ∧ i0 ≤ j
    ∧ servers !! (j - i0) = Some s ∧ addrany s = 0%Z.
Proof.
  induction servers as [|s0 rest IH]; intros i0 c; simpl.
  - by intros ?%elem_of_nil.
  - intros [Hhead|Htail]%elem_of_app.
    + destruct (Z.eqb_spec (addrany s0) 0) as [Hz|Hz];
        [|by apply elem_of_nil in Hhead].
      apply list_elem_of_singleton in Hhead as ->.
      exists i0, s0. rewrite Nat.sub_diag. repeat split; eauto.
    + destruct (IH (S i0) c Htail) as (j & s & Hc & Hle & Hlook & Hz).
      exists j, s. repeat split; try done; [lia|].
      replace (j - i0) with (S (j - S i0)) by lia. done.
Qed.

(** The listener loop issues only [CreatePassive] calls, each showing the
    interface record its server designates. *)
Lemma create_passives_calls envs ifs v servers : ∀ i0 w c,
  c ∈ (create_passives envs ifs v i0 servers w).1.1 →
  ∃ j ifc cfg s, c = CreatePassive j ifc cfg
    ∧ i0 ≤ j ∧ servers !! (j - i0) = Some s
    ∧ interface cfg = interface s ∧ ifs !! interface s = Some ifc.
Proof.
  induction servers as [|s0 rest IH]; intros i0 w c; simpl.
  - by intros ?%elem_of_nil.
  - destruct (ifs !! interface s0) as [ifc|] eqn:Hifc; simpl;
      [|by intros ?%elem_of_nil].
    destruct (Listener.create_passive _ _ _ _ _) as [[p|] w1].
    + specialize (IH (S i0) w1 c).
      destruct (create_passives envs ifs v (S i0) rest w1) as [[cs rest'] w2].
      simpl in *. intros [->|Hin]%elem_of_cons.
      * eexists i0, ifc, _, s0. rewrite Nat.sub_diag. by repeat split.
      * destruct (IH Hin) as (j & ifc' & cfg & s & -> & Hle & Hlook & Hi & Hl).
        exists j, ifc', cfg, s. repeat split; try done; [lia|].
        replace (j - i0) with (S (j - S i0)) by lia. done.
    + simpl. intros ->%list_elem_of_singleton.
      eexists i0, ifc, _, s0. rewrite Nat.sub_diag. by repeat split.
Qed.

(** What [startup] logs, part by part. *)
Lemma startup_log loop_new envs v ifs servers log w :
  startup loop_new envs v ifs servers = inr (log, w) →
  ∃ ifs1 servers1 ifs2,
    validate ifs servers = Some (ifs1, servers1)
    ∧ ifs2 = (create_interfaces loop_new 0 ifs1).2
    ∧ ∀ c, c ∈ log →
        c = UinetInit
        ∨ c ∈ (create_interfaces loop_new 0 ifs1).1
        ∨ c ∈ add_aliases ifs2 0 servers1
        ∨ c ∈ (create_passives envs ifs2 v 0 servers1 Env.empty_world).1.1.
Proof.
  unfold Startup.startup.
  destruct (validate ifs servers) as [[ifs1 servers1]|]; [|done].
  destruct (create_interfaces loop_new 0 ifs1) as [created ifs2] eqn:Hif.
  destruct (create_passives envs ifs2 v 0 servers1 Env.empty_world)
    as [[made servers2] w2] eqn:Hmade.
  intros [= <- <-]. exists ifs1, servers1, ifs2.
  rewrite Hif. simpl. rewrite Hmade. simpl.
  split; [done|]. split; [done|].
  intros c [->|Hin]%elem_of_cons; [by left|].
  apply elem_of_app in Hin as [Hin|Hin]; [by right; left|].
  apply elem_of_app in Hin as [Hin|Hin]; [by right; right; left|].
  by right; right; right.
Qed.

(** C8.  A server with listen port 0 whose configuration passes validation:
    when validation ends its interface's promiscuity flag is 1, and every
    interface creation and every listener construction that [main] then
    carries out for that interface sees the flag set (the interface is
    created in its own capture domain, not in domain 0). *)
Theorem port_zero_forces_promiscuity (ifs : list interface_config)
    (servers : list server_config) (i : nat) (s : server_config)
    (ifs' : list interface_config) (servers' : list server_config) :
  servers !! i = Some s →
  listen_port s = 0%Z →
  interface s < length ifs →
  validate ifs servers = Some (ifs', servers') →
  flagged (interface s) ifs'
  ∧ ∀ loop_new envs v log w,
      startup loop_new envs v ifs servers = inr (log, w) →
      (∀ k ifc cd, IfCreate k ifc cd ∈ log → k = interface s →
         promisc ifc = 1%Z ∧ cd = cdom ifc)
      ∧ (∀ j ifc cfg, CreatePassive j ifc cfg ∈ log →
           interface cfg = interface s → promisc ifc = 1%Z).
Proof.
  intros Hi Hport Hlt Hval.
  destruct (validate_spec _ _ _ _ Hval) as (Hlen & _ & Hrec).
  destruct (Hrec i s Hi Hlt) as (s' & Hs' & _ & _ & _ & Hflag & _).
  specialize (Hflag Hport). split; [done|].
  intros loop_new envs v log w Hrun.
  destruct (startup_log _ _ _ _ _ _ _ Hrun)
    as (ifs1 & servers1 & ifs2 & Hval1 & -> & Hlog).
  rewrite Hval in Hval1. injection Hval1 as <- <-.
  split.
  - intros k ifc cd Hin ->.
    destruct (Hlog _ Hin) as [?|[Hc|[Hc|Hc]]]; [done| | |].
    + destruct (create_interfaces_calls _ _ _ _ Hc)
        as (k & ifc1 & orig & [= <- <- ->] & _ & Hlook & Hp & Hcd).
      rewrite Nat.sub_0_r in Hlook.
      destruct Hflag as (ifc2 & Hifc2 & Hp2).
      assert (orig = ifc2) as -> by congruence.
      rewrite Hp, Hcd, Hp2. done.
    + destruct (add_aliases_calls _ _ _ _ Hc) as (? & ? & (? & ? & ?) & _).
      done.
    + destruct (create_passives_calls _ _ _ _ _ _ _ Hc)
        as (? & ? & ? & ? & ? & _). done.
  - intros j ifc cfg Hin Hif.
    destruct (Hlog _ Hin) as [?|[Hc|[Hc|Hc]]]; [done| | |].
    + destruct (create_interfaces_calls _ _ _ _ Hc)
        as (? & ? & ? & ? & _). done.
    + destruct (add_aliases_calls _ _ _ _ Hc) as (? & ? & (? & ? & ?) & _).
      done.
    + destruct (create_passives_calls _ _ _ _ _ _ _ Hc)
        as (j' & ifc' & cfg' & s1 & [= <- <- <-] & _ & _ & Hif1 & Hlook).
      destruct (create_interfaces_flagged loop_new ifs' 0 _ Hflag)
        as (ifc2 & Hifc2 & Hp2).
      rewrite <- Hif1, Hif in Hlook. congruence.
Qed.

(** C10.  A server whose listen address parses to the wildcard and whose
    configuration passes validation: when validation ends the server is
    marked address-any and its interface's promiscuity flag is 1, and [main]
    then adds no address alias for that server. *)
Theorem wildcard_address_forces_promiscuity (ifs : list interface_config)
    (servers : list server_config) (i : nat) (s : server_config)
    (ifs' : list interface_config) (servers' : list server_config) :
  servers !! i = Some s →
  uinet_inet_pton (listen_addr s) = Some UINET_INADDR_ANY →
  interface s < length ifs →
  validate ifs servers = Some (ifs', servers') →
  flagged (interface s) ifs'
  ∧ (∃ s', servers' !! i = Some s' ∧ addrany s' = 1%Z)
  ∧ ∀ loop_new envs v log w,
      startup loop_new envs v ifs servers = inr (log, w) →
      ∀ al ad, AddAlias i al ad ∉ log.
Proof.
  intros Hi Hany Hlt Hval.
  destruct (validate_spec _ _ _ _ Hval) as (Hlen & _ & Hrec).
  destruct (Hrec i s Hi Hlt) as (s' & Hs' & _ & _ & _ & _ & Hflag).
  destruct (Hflag Hany) as [Hfl Hmark].
  split; [done|]. split; [eauto|].
  intros loop_new envs v log w Hrun al ad Hin.
  destruct (startup_log _ _ _ _ _ _ _ Hrun)
    as (ifs1 & servers1 & ifs2 & Hval1 & -> & Hlog).
  rewrite Hval in Hval1. injection Hval1 as <- <-.
  destruct (Hlog _ Hin) as [?|[Hc|[Hc|Hc]]]; [done| | |].
  - destruct (create_interfaces_calls _ _ _ _ Hc) as (? & ? & ? & ? & _).
    done.
  - destruct (add_aliases_calls _ _ _ _ Hc)
      as (j & s1 & (al' & ad' & [= <- _ _]) & _ & Hlook & Hz).
    rewrite Nat.sub_0_r in Hlook. rewrite Hs' in Hlook.
    injection Hlook as <-. rewrite Hmark in Hz. done.
  - destruct (create_passives_calls _ _ _ _ _ _ _ Hc)
      as (? & ? & ? & ? & ? & _). done.
Qed.

End StartupFacts.

Section StartupWitnesses.
Import Config Startup.

Lemma port_zero_forces_promiscuity_witness :
  flagged 0 [with_promisc (sample_interface 0)].
Proof.
  apply (port_zero_forces_promiscuity sample_pton 0%Z (λ p _, p)
           [sample_interface 0] [ServerConfig "10.0.0.1" 0%Z 0 0%Z None 0%Z]
           0 (ServerConfig "10.0.0.1" 0%Z 0 0%Z None 0%Z)
           [with_promisc (sample_interface 0)]
           [ServerConfig "10.0.0.1" 0%Z 0 0%Z None 0%Z]).
  - reflexivity.
  - reflexivity.
  - simpl. lia.
  - reflexivity.
Defined.

Lemma wildcard_address_forces_promiscuity_witness :
  flagged 0 [with_promisc (sample_interface 0)]
  ∧ ∃ s', [ServerConfig "0.0.0.0" 80%Z 0 0%Z None 1%Z] !! 0 = Some s'
          ∧ addrany s' = 1%Z.
Proof.
  pose proof (wildcard_address_forces_promiscuity sample_pton 0%Z (λ p _, p)
           [sample_interface 0] [ServerConfig "0.0.0.0" 80%Z 0 0%Z None 0%Z]
           0 (ServerConfig "0.0.0.0" 80%Z 0 0%Z None 0%Z)
           [with_promisc (sample_interface 0)]
           [ServerConfig "0.0.0.0" 80%Z 0 0%Z None 1%Z]
           eq_refl eq_refl (Nat.lt_0_1) eq_refl) as (Hflag & Hmark & _).
  exact (conj Hflag Hmark).
Defined.

End StartupWitnesses.

(** ** The renderer on arbitrary input *)

Section RendererInvariant.
Import Renderer Measures.

Lemma texts_app ts1 ts2 : texts (ts1 ++ ts2) = texts ts1 ++ texts ts2.
Proof.
  induction ts1 as [|[n|s] ts1 IH]; simpl; [done|done|by rewrite IH].
Qed.

Lemma markers_app ts1 ts2 : markers (ts1 ++ ts2) = markers ts1 ++ markers ts2.
Proof.
  induction ts1 as [|[n|s] ts1 IH]; simpl; [done|by rewrite IH|done].
Qed.

Lemma texts_flush_marker k ts : texts (flush_marker k ts) = texts ts.
Proof.
  destruct k; simpl; [done|]. rewrite texts_app. simpl. by rewrite app_nil_r.
Qed.

Lemma markers_flush_marker k ts :
  markers (flush_marker k ts)
  = markers ts ++ match k with 0 => [] | S _ => [k] end.
Proof.
  destruct k; simpl; [by rewrite app_nil_r|]. by rewrite markers_app.
Qed.

Lemma printed_snoc ts s : printed (ts ++ [Text s]) = printed ts ++ s.
Proof.
  unfold printed. rewrite texts_app, concat_app. simpl. by rewrite app_nil_r.
Qed.

Lemma invariant_init buf0 : invariant buf0 0 (RState buf0 0 0 []).
Proof.
  split; simpl; try done; constructor.
Qed.

Lemma increasing_snoc l k :
  increasing l → Forall (λ m, m < k) l → increasing (l ++ [k]).
Proof.
  intros Hinc Hlt i j a b Hij Hi Hj.
  destruct (decide (j < length l)) as [Hjl|Hjl].
  - rewrite lookup_app_l in Hi, Hj by lia. eauto.
  - rewrite lookup_app_r in Hj by lia.
    destruct (j - length l) as [|?] eqn:Hd; simpl in Hj; [|done].
    injection Hj as <-.
    rewrite lookup_app_l in Hi by lia.
    rewrite Forall_lookup in Hlt. eauto.
Qed.

Lemma length_printed_snoc ts s :
  length (printed (ts ++ [Text s])) = length (printed ts) + length s.
Proof. by rewrite printed_snoc, length_app. Qed.

Lemma printed_flush_marker k ts : printed (flush_marker k ts) = printed ts.
Proof. unfold printed. by rewrite texts_flush_marker. Qed.

Lemma increasing_flush (k : nat) (ms : list nat) :
  increasing ms → Forall (λ m, m < k) ms →
  increasing (ms ++ match k with 0 => [] | S _ => [k] end).
Proof.
  intros Hinc Hlt. destruct k; [by rewrite app_nil_r|].
  by apply increasing_snoc.
Qed.

(** The run that ends before index [n]: its bytes, and how it sits in the
    buffer. *)
Lemma run_before (buf0 : list ascii) n p b :
  p ≤ n → buf0 !! n = Some b →
  length (take p (drop (n - p) buf0)) = p
  ∧ take (S p) (drop (n - p) buf0) = take p (drop (n - p) buf0) ++ [b]
  ∧ take (S n) buf0 = take (n - p) buf0 ++ take p (drop (n - p) buf0) ++ [b].
Proof.
  intros Hp Hb. pose proof (lookup_lt_Some _ _ _ Hb) as Hn.
  assert (Hlen : length (take p (drop (n - p) buf0)) = p).
  { rewrite length_take, length_drop. lia. }
  assert (Hsnoc : take (S p) (drop (n - p) buf0)
                  = take p (drop (n - p) buf0) ++ [b]).
  { erewrite take_S_r; [done|]. rewrite lookup_drop.
    by replace (n - p + p) with n by lia. }
  split; [done|]. split; [done|].
  rewrite <- Hsnoc, take_take_drop. f_equal. lia.
Qed.

Lemma invariant_step buf0 n st :
  n < length buf0 → invariant buf0 n st →
  invariant buf0 (S n) (render_step st n).
Proof.
  intros Hn [Hlen Hrun Hbuf Hpr Hcnt Hprinted Hsub Hruns Hinc Hbelow].
  destruct (lookup_lt_is_Some_2 buf0 n Hn) as [b Hb].
  destruct (run_before buf0 n (printable st) b Hrun Hb)
    as (HlenR & Hsnoc & Htake).
  assert (Hnext : ∀ l, drop (n - printable st) l
                       = drop (n - printable st) buf0 →
                       drop (S n) l = drop (S n) buf0).
  { intros l Hl.
    replace (S n) with (n - printable st + S (printable st)) by lia.
    by rewrite <- !drop_drop, Hl. }
  assert (Hbn : buffer st !! n = Some b).
  { replace n with (n - printable st + printable st) by lia.
    rewrite <- lookup_drop, Hbuf, lookup_drop.
    by replace (n - printable st + printable st) with n by lia. }
  unfold render_step. rewrite Hbn. cbn [from_option id].
  destruct (is_printable b) eqn:Hpb.
  - replace (printable st + 1) with (S (printable st)) by lia.
    split; cbn [buffer printable skipped out]; rewrite ?Nat.sub_succ;
      try done.
    + lia.
    + rewrite Hsnoc. apply Forall_app. split; [done|]. by constructor.
    + lia.
  - destruct (Nat.leb_spec print_threshold (printable st)) as [Hth|Hth].
    + assert (Hrun_text :
          cstr (<[n := NUL]> (buffer st)) (n - printable st)
          = take (printable st) (drop (n - printable st) buf0)).
      { rewrite cstr_run; [by rewrite Hbuf|lia|done|by rewrite Hbuf]. }
      rewrite Hrun_text.
      split; cbn [buffer printable skipped out].
      * by rewrite length_insert.
      * lia.
      * rewrite drop_insert_lt by lia. rewrite Nat.sub_0_r. by apply Hnext.
      * constructor.
      * rewrite length_printed_snoc, printed_flush_marker, HlenR. lia.
      * rewrite printed_snoc, printed_flush_marker.
        apply Forall_app. by split.
      * rewrite printed_snoc, printed_flush_marker, Nat.sub_0_r, Htake.
        apply sublist_app; [done|]. by apply sublist_inserts_r.
      * rewrite texts_app, texts_flush_marker. simpl.
        apply Forall_app. split; [done|]. constructor; [lia|constructor].
      * rewrite markers_app, markers_flush_marker. simpl. rewrite app_nil_r.
        by apply increasing_flush.
      * rewrite markers_app, markers_flush_marker. simpl. rewrite app_nil_r.
        apply Forall_app. split.
        -- eapply Forall_impl; [exact Hbelow|]. simpl. lia.
        -- destruct (skipped st) as [|k]; [constructor|].
           constructor; [lia|constructor].
    + split; cbn [buffer printable skipped out]; try done.
      * lia.
      * rewrite Nat.sub_0_r. by apply Hnext.
      * lia.
      * rewrite Nat.sub_0_r, Htake. by apply sublist_inserts_r.
      * eapply Forall_impl; [exact Hbelow|]. simpl. lia.
Qed.

Lemma invariant_loop buf0 n :
  n ≤ length buf0 → invariant buf0 n (render_loop (RState buf0 0 0 []) n).
Proof.
  induction n as [|n IH]; intros Hn; [apply invariant_init|].
  rewrite render_loop_S. apply invariant_step; [lia|]. apply IH. lia.
Qed.

(** The state in which the loop of [render] ends, and what [render] returns
    from it. *)
Lemma render_shape (buf : list ascii) (L : nat) :
  L < length buf →
  ∃ st tail,
    invariant (<[L := NUL]> buf) L st
    ∧ tail = take (printable st) (drop (L - printable st) (<[L := NUL]> buf))
    ∧ render buf L = flush_marker (skipped st) (out st) ++ [Text tail].
Proof.
  intros HL. set (buf0 := <[L := NUL]> buf).
  assert (Hlen0 : length buf0 = length buf) by apply length_insert.
  pose proof (invariant_loop buf0 L ltac:(lia)) as Hinv.
  exists (render_loop (RState buf0 0 0 []) L). eexists.
  split; [exact Hinv|]. split; [reflexivity|].
  unfold render. fold buf0. do 2 f_equal.
  destruct Hinv as [Hlen Hrun Hbuf Hpr _ _ _ _ _ _].
  rewrite cstr_run; [by rewrite Hbuf|lia|done|by rewrite Hbuf].
Qed.

(** X1.  Whatever the buffer holds, every byte the renderer prints with [%s]
    is a printable one. *)
Theorem render_prints_only_printable (buf : list ascii) (L : nat) :
  L < length buf →
  Forall (λ b, is_printable b = true) (printed (render buf L)).
Proof.
  intros HL. destruct (render_shape buf L HL) as (st & tail & Hinv & -> & ->).
  rewrite printed_snoc, printed_flush_marker.
  apply Forall_app. split; [apply Hinv|apply Hinv].
Qed.

Lemma render_prints_only_printable_witness :
  Forall (λ b, is_printable b = true)
    (printed (render noisy_buffer noisy_length)).
Proof.
  apply (render_prints_only_printable noisy_buffer noisy_length).
  vm_compute. lia.
Defined.

(** X2.  Every byte of the span is accounted for: the number of bytes
    printed plus the count shown by the last marker (0 when no marker is
    printed) is the length of the span. *)
Theorem render_accounts_for_every_byte (buf : list ascii) (L : nat) :
  L < length buf →
  length (printed (render buf L)) + last_marker (render buf L) = L.
Proof.
  intros HL. destruct (render_shape buf L HL) as (st & tail & Hinv & Ht & ->).
  assert (Hlt : length tail = printable st).
  { subst tail. rewrite length_take, length_drop, length_insert.
    pose proof (inv_run _ _ _ Hinv). lia. }
  rewrite length_printed_snoc, printed_flush_marker, Hlt.
  pose proof (inv_count _ _ _ Hinv) as Hcnt.
  unfold last_marker. rewrite markers_app, markers_flush_marker. simpl.
  rewrite app_nil_r.
  destruct (skipped st) as [|k] eqn:Hk.
  - pose proof (inv_below _ _ _ Hinv) as Hb. rewrite Hk in Hb.
    destruct (markers (out st)) as [|m ms].
    + simpl. lia.
    + apply Forall_cons in Hb as [Hm _]. lia.
  - rewrite last_snoc. simpl. lia.
Qed.

Lemma render_accounts_for_every_byte_witness :
  length (printed (render noisy_buffer noisy_length))
  + last_marker (render noisy_buffer noisy_length) = noisy_length.
Proof.
  apply (render_accounts_for_every_byte noisy_buffer noisy_length).
  vm_compute. lia.
Defined.

(** X3.  The counts shown by the markers of one rendering are strictly
    increasing: each marker shows the bytes skipped since the start of the
    span, not since the previous marker. *)
Theorem render_markers_increase (buf : list ascii) (L : nat) :
  L < length buf → increasing (markers (render buf L)).
Proof.
  intros HL. destruct (render_shape buf L HL) as (st & tail & Hinv & _ & ->).
  rewrite markers_app, markers_flush_marker. simpl. rewrite app_nil_r.
  apply increasing_flush; apply Hinv.
Qed.

Lemma render_markers_increase_witness :
  increasing (markers (render noisy_buffer noisy_length)).
Proof.
  apply (render_markers_increase noisy_buffer noisy_length).
  vm_compute. lia.
Defined.

(** X4.  What is printed with [%s] is made of bytes of the span, in the
    order of the span: nothing is invented, repeated or reordered. *)
Theorem render_prints_in_order (buf : list ascii) (L : nat) :
  L < length buf → printed (render buf L) `sublist_of` take L buf.
Proof.
  intros HL. destruct (render_shape buf L HL) as (st & tail & Hinv & -> & ->).
  rewrite printed_snoc, printed_flush_marker.
  pose proof (inv_run _ _ _ Hinv) as Hrun.
  replace (take L buf) with (take L (<[L := NUL]> buf))
    by (by rewrite take_insert_ge).
  replace L with (L - printable st + printable st) at 3 by lia.
  rewrite <- take_take_drop.
  apply sublist_app; [apply Hinv|done].
Qed.

Lemma render_prints_in_order_witness :
  printed (render noisy_buffer noisy_length)
  `sublist_of` take noisy_length noisy_buffer.
Proof.
  apply (render_prints_in_order noisy_buffer noisy_length).
  vm_compute. lia.
Defined.

(** X5.  Every run printed before the end of the span has at least
    [print_threshold] bytes; only the run printed last, at the end of the
    span, can be shorter. *)
Theorem render_runs_reach_threshold (buf : list ascii) (L : nat) :
  L < length buf →
  ∃ runs tail,
    texts (render buf L) = runs ++ [tail]
    ∧ Forall (λ s, 10 ≤ length s) runs.
Proof.
  intros HL. destruct (render_shape buf L HL) as (st & tail & Hinv & _ & ->).
  exists (texts (out st)), tail.
  rewrite texts_app, texts_flush_marker. split; [done|apply Hinv].
Qed.

Lemma render_runs_reach_threshold_witness :
  ∃ runs tail,
    texts (render noisy_buffer noisy_length) = runs ++ [tail]
    ∧ Forall (λ s, 10 ≤ length s) runs.
Proof.
  apply (render_runs_reach_threshold noisy_buffer noisy_length).
  vm_compute. lia.
Defined.

End RendererInvariant.

(** ** The read handler on its other paths *)

Section ReadHandlerPaths.
Import Renderer Measures Env ReadHandler ReadSamples.
Local Open Scope Z_scope.

(** X6.  When bytes are available, the size read is at least 1, at most what
    is available, and below [BUFFER_SIZE]: the terminator written at
    [buffer[read_size]] stays inside the buffer. *)
Theorem read_size_within_buffer (ev : read_event) :
  0 < max_read ev →
  0 < read_size ev ∧ read_size ev ≤ max_read ev ∧ read_size ev < BUFFER_SIZE.
Proof.
  intros Hpos. rewrite read_size_min. unfold BUFFER_SIZE. lia.
Qed.

Lemma read_size_within_buffer_witness :
  0 < read_size (ReadEvent 70000 0 0 [])
  ∧ read_size (ReadEvent 70000 0 0 []) ≤ 70000
  ∧ read_size (ReadEvent 70000 0 0 []) < BUFFER_SIZE.
Proof.
  apply (read_size_within_buffer (ReadEvent 70000 0 0 [])). simpl. lia.
Defined.

(** X7.  With bytes available, a receive error closes this Connection and
    nothing else: the handler logs the error, stops the watcher, closes the
    socket and frees the record without counting anything, and every other
    record, watcher and socket is as before.  A receive that reports no
    error but leaves bytes unread fails the second assertion and aborts the
    process. *)
Theorem receive_error_or_short_read (w : world) (c : ptr)
    (conn : connection_context) (ev : read_event) :
  conns w !! c = Some conn →
  0 < max_read ev →
  (recv_error ev ≠ 0 →
     passive_receive_cb w c ev
     = Returned (teardown c conn w,
                 [LogReadError (label conn) (recv_error ev)])
     ∧ counter (teardown c conn w) c = None
     ∧ (c ∉ watchers (teardown c conn w))
     ∧ (watcher_so conn ∉ sockets (teardown c conn w))
     ∧ (∀ c', c' ≠ c →
          conns (teardown c conn w) !! c' = conns w !! c'
          ∧ (c' ∈ watchers (teardown c conn w) ↔ c' ∈ watchers w))
     ∧ (∀ s, s ≠ watcher_so conn →
          (s ∈ sockets (teardown c conn w) ↔ s ∈ sockets w)))
  ∧ (recv_error ev = 0 → recv_resid ev ≠ 0 →
     passive_receive_cb w c ev = Aborted).
Proof.
  intros Hc Hpos. unfold passive_receive_cb. rewrite Hc.
  destruct (Z.leb_spec (max_read ev) 0) as [Hle|_]; [lia|].
  split.
  - intros Herr. destruct (Z.eqb_spec (recv_error ev) 0) as [?|_]; [done|].
    simpl. split; [done|]. unfold counter. simpl.
    rewrite lookup_delete_eq. split; [done|].
    split; [set_solver|]. split; [set_solver|]. split.
    + intros c' Hne. rewrite lookup_delete_ne by done. set_solver.
    + intros s Hne. set_solver.
  - intros -> Hres. simpl.
    by destruct (Z.eqb_spec (recv_resid ev) 0) as [?|_].
Qed.

Lemma receive_error_or_short_read_witness :
  passive_receive_cb sample_world 7%nat (ReadEvent 10 54 10 [])
  = Returned (teardown 7%nat sample_conn sample_world,
              [LogReadError "SERVER" 54])
  ∧ passive_receive_cb sample_world 7%nat (ReadEvent 10 0 4 []) = Aborted.
Proof.
  pose proof (receive_error_or_short_read sample_world 7%nat sample_conn
                (ReadEvent 10 54 10 []) eq_refl eq_refl) as [Herr _].
  pose proof (receive_error_or_short_read sample_world 7%nat sample_conn
                (ReadEvent 10 0 4 []) eq_refl eq_refl) as [_ Hshort].
  split.
  - apply Herr. discriminate.
  - apply Hshort; [reflexivity|discriminate].
Defined.

(** X8.  A successful read touches one field of one record: the sockets,
    attachments, watchers, listener records and every other Connection are
    as before, and this Connection keeps its label, socket and listener. *)
Theorem receive_success_frame (w : world) (c : ptr)
    (conn : connection_context) (ev : read_event) :
  conns w !! c = Some conn →
  successful ev →
  ∃ w' log conn',
    passive_receive_cb w c ev = Returned (w', log)
    ∧ sockets w' = sockets w ∧ attached w' = attached w
    ∧ watchers w' = watchers w ∧ passives w' = passives w
    ∧ calls w' = calls w
    ∧ conns w' !! c = Some conn'
    ∧ label conn' = label conn ∧ watcher_so conn' = watcher_so conn
    ∧ server conn' = server conn
    ∧ ∀ c', c' ≠ c → conns w' !! c' = conns w !! c'.
Proof.
  intros Hc Hev. destruct (receive_successful w c conn ev Hc Hev) as [log Hrun].
  eexists _, log, _. split; [exact Hrun|]. simpl.
  rewrite lookup_insert_eq. repeat split.
  intros c' Hne. by rewrite lookup_insert_ne.
Qed.

Lemma receive_success_frame_witness :
  ∃ w' log conn',
    passive_receive_cb sample_world 7%nat (ReadEvent 100 0 0 [])
    = Returned (w', log)
    ∧ sockets w' = sockets sample_world
    ∧ attached w' = attached sample_world
    ∧ watchers w' = watchers sample_world
    ∧ passives w' = passives sample_world
    ∧ calls w' = calls sample_world
    ∧ conns w' !! 7%nat = Some conn'
    ∧ label conn' = label sample_conn
    ∧ watcher_so conn' = watcher_so sample_conn
    ∧ server conn' = server sample_conn
    ∧ ∀ c', c' ≠ 7%nat → conns w' !! c' = conns sample_world !! c'.
Proof.
  apply (receive_success_frame sample_world 7%nat sample_conn
           (ReadEvent 100 0 0 [])).
  - reflexivity.
  - repeat split.
Defined.

(** X9.  The counter is a 64-bit unsigned sum: from any value it can hold,
    after any run of successful reads it is the old value plus the sizes
    read, modulo 2^64, and so it wraps around rather than saturating. *)
Theorem bytes_read_wraps (evs : list read_event) (w : world) (c : ptr)
    (conn : connection_context) :
  conns w !! c = Some conn →
  0 ≤ bytes_read conn < 2 ^ 64 →
  Forall successful evs →
  ∃ w' log,
    run_reads w c evs = Returned (w', log)
    ∧ counter w' c = Some ((bytes_read conn + total_read evs) mod 2 ^ 64).
Proof.
  revert w conn.
  induction evs as [|ev evs IH]; intros w conn Hc Hrange Hs.
  - exists w, []. split; [done|]. unfold counter. rewrite Hc. simpl.
    f_equal. unfold total_read. simpl. rewrite Z.add_0_r.
    symmetry. by apply Z.mod_small.
  - apply Forall_cons in Hs as [Hev Hs].
    destruct (receive_successful w c conn ev Hc Hev) as [log Hstep].
    destruct (IH (store_conn c (add_bytes_read conn (read_size ev)) w)
                (add_bytes_read conn (read_size ev)))
      as (w' & log' & Hrun & Hcnt).
    + simpl. by rewrite lookup_insert_eq.
    + simpl. apply Z.mod_pos_bound. lia.
    + done.
    + exists w', (log ++ log'). simpl. rewrite Hstep, Hrun.
      split; [done|]. rewrite Hcnt. f_equal. simpl.
      rewrite total_read_cons, Z.add_mod_idemp_l by lia. f_equal. lia.
Qed.

Lemma bytes_read_wraps_witness :
  ∃ w' log,
    run_reads nearly_full_world 7%nat
      [ReadEvent 4 0 0 []; ReadEvent 8 0 0 []]
    = Returned (w', log)
    ∧ counter w' 7%nat = Some ((2 ^ 64 - 10 + 12) mod 2 ^ 64).
Proof.
  apply (bytes_read_wraps [ReadEvent 4 0 0 []; ReadEvent 8 0 0 []]
           nearly_full_world 7%nat nearly_full_conn).
  - reflexivity.
  - simpl. lia.
  - repeat constructor.
Defined.

(** X10.  A verbose successful read ends its log with a dump for this
    Connection that reports the size read and the updated counter, and whose
    body accounts for every byte read: the printable bytes it shows plus the
    count of its last marker is the size read. *)
Theorem receive_dump_accounts (w : world) (c : ptr)
    (conn : connection_context) (ev : read_event) :
  conns w !! c = Some conn →
  successful ev →
  verbose (server conn) ≠ 0 →
  (Z.to_nat (read_size ev) < length (recv_buffer ev))%nat →
  ∃ w' before body n,
    passive_receive_cb w c ev
    = Returned (w', before ++ [LogDump (label conn) (read_size ev) n body])
    ∧ counter w' c = Some n
    ∧ Forall (λ b, is_printable b = true) (printed body)
    ∧ Z.of_nat (length (printed body) + last_marker body) = read_size ev.
Proof.
  intros Hc Hev Hv Hlen.
  pose proof (read_size_pos ev Hev) as Hpos.
  destruct Hev as (Hmax & Herr & Hres).
  unfold passive_receive_cb. rewrite Hc, Herr, Hres.
  destruct (Z.leb_spec (max_read ev) 0) as [?|_]; [lia|]. simpl.
  destruct (Z.eqb_spec (verbose (server conn)) 0) as [?|_]; [done|].
  eexists _, _, _, _. split; [reflexivity|].
  unfold counter. simpl. rewrite lookup_insert_eq. split; [done|].
  destruct (render_shape _ _ Hlen) as (st & tail & Hinv & Ht & ->).
  assert (Hlt : length tail = printable st).
  { subst tail. rewrite length_take, length_drop, length_insert.
    pose proof (inv_run _ _ _ Hinv). lia. }
  rewrite printed_snoc, printed_flush_marker. split.
  - apply Forall_app. split; [apply Hinv|]. subst tail. apply Hinv.
  - rewrite length_app, Hlt.
    pose proof (inv_count _ _ _ Hinv) as Hcnt.
    unfold last_marker. rewrite markers_app, markers_flush_marker. simpl.
    rewrite app_nil_r.
    destruct (skipped st) as [|k] eqn:Hk.
    + pose proof (inv_below _ _ _ Hinv) as Hb. rewrite Hk in Hb.
      destruct (markers (out st)) as [|m ms].
      * simpl. lia.
      * apply Forall_cons in Hb as [Hm _]. lia.
    + rewrite last_snoc. simpl. lia.
Qed.

Lemma receive_dump_accounts_witness :
  ∃ w' before body n,
    passive_receive_cb verbose_world 7%nat noisy_read
    = Returned (w', before ++ [LogDump "CLIENT" 33 n body])
    ∧ counter w' 7%nat = Some n
    ∧ Forall (λ b, is_printable b = true) (printed body)
    ∧ Z.of_nat (length (printed body) + last_marker body) = 33.
Proof.
  apply (receive_dump_accounts verbose_world 7%nat verbose_conn noisy_read).
  - reflexivity.
  - repeat split.
  - discriminate.
  - vm_compute. lia.
Defined.

End ReadHandlerPaths.

(** ** The acceptor on its other paths *)

Section DecimalText.
Import Acceptor.

Lemma length_string_app (s1 s2 : string) :
  String.length (s1 +:+ s2) = String.length s1 + String.length s2.
Proof. induction s1 as [|c s1 IH]; simpl; [done|by rewrite IH]. Qed.

Lemma substring_all (s : string) (n : nat) :
  String.length s ≤ n → substring 0 n s = s.
Proof.
  revert n. induction s as [|c s IH]; intros [|n] Hn; simpl in *;
    [done|done|lia|]. rewrite IH; [done|lia].
Qed.

Lemma length_string_of_uint d :
  String.length (NilEmpty.string_of_uint d) = Decimal.nb_digits d.
Proof. induction d; simpl; by rewrite ?IHd. Qed.

(** One more decimal digit for every factor of ten. *)
Lemma nb_digits_to_lu_step q r :
  q ≠ 0 → r < 10 →
  Decimal.nb_digits (DecimalNat.Unsigned.to_lu (r + 10 * q))
  = S (Decimal.nb_digits (DecimalNat.Unsigned.to_lu q)).
Proof.
  intros Hq Hr.
  do 10 (destruct r as [|r];
         [cbn [Nat.add DecimalNat.Unsigned.to_lu];
          rewrite (DecimalNat.Unsigned.to_lu_tenfold q Hq); reflexivity|]).
  lia.
Qed.

Lemma nb_digits_to_lu_bound k : ∀ n,
  n < 10 ^ S k → Decimal.nb_digits (DecimalNat.Unsigned.to_lu n) ≤ S k.
Proof.
  induction k as [|k IH]; intros n Hn.
  - change (10 ^ 1) with 10 in Hn.
    do 10 (destruct n as [|n]; [simpl; lia|]). lia.
  - destruct (Nat.lt_ge_cases n 10) as [Hsmall|Hbig].
    + do 10 (destruct n as [|n]; [simpl; lia|]). lia.
    + pose proof (Nat.div_mod_eq n 10) as Hdm.
      pose proof (Nat.mod_upper_bound n 10 ltac:(lia)) as Hr.
      assert (Hq : n / 10 ≠ 0).
      { intros H0. rewrite H0 in Hdm. lia. }
      assert (Hqk : n / 10 < 10 ^ S k).
      { apply Nat.Div0.div_lt_upper_bound.
        change (10 ^ S (S k)) with (10 * 10 ^ S k) in Hn. lia. }
      replace n with (n mod 10 + 10 * (n / 10)) by lia.
      rewrite nb_digits_to_lu_step by done.
      specialize (IH _ Hqk). lia.
Qed.

(** [%u] of a number below [10^k] takes at most [k] characters. *)
Lemma length_dec_bound k n :
  n < 10 ^ S k → String.length (dec n) ≤ S k.
Proof.
  intros Hn. unfold dec.
  rewrite length_string_of_uint, DecimalNat.Unsigned.to_uint_alt,
    DecimalFacts.nb_digits_rev.
  by apply nb_digits_to_lu_bound.
Qed.

End DecimalText.

Section AcceptorPaths.
Import Env Acceptor Wire.

Variable inet_ntoa_text : in_addr → string.

(** X11.  When the accept itself, either loop attachment or the first record
    allocation fails, the handler returns with the world holding exactly what
    it held before the event: the sockets and attachments acquired so far
    are released, no watcher is started and no record is left. *)
Theorem accept_cb_rolls_back (w : world) (passive : passive_context)
    (e : accept_env) :
  (∀ so, accepted e = Some so → so ∉ sockets w ∧ so ∉ attached w) →
  passive_peer e ∉ sockets w → passive_peer e ∉ attached w →
  accepted e = None ∨ attach_ok e = false ∨ peer_attach_ok e = false
    ∨ conn_alloc e = None →
  ∃ w', accept_cb inet_ntoa_text w passive e = Returned w'
    ∧ same_resources w w' ∧ calls w' = calls w.
Proof.
  intros Hso Hp1 Hp2 Hfail. unfold accept_cb, same_resources.
  destruct (accepted e) as [so|]; [|by eexists].
  destruct (Hso so eq_refl) as [Hs1 Hs2].
  unfold ev_uinet_attach.
  destruct (attach_ok e).
  2:{ eexists. split; [reflexivity|]. simpl. repeat split. set_solver. }
  destruct (peer_attach_ok e).
  2:{ eexists. split; [reflexivity|]. simpl. repeat split; set_solver. }
  destruct (conn_alloc e) as [p|].
  { destruct Hfail as [?|[?|[?|?]]]; done. }
  eexists. split; [reflexivity|]. simpl. repeat split; set_solver.
Qed.


(** Two fresh running records raise the number of live Connections by
    two. *)
Lemma live_connections_two_more (w w' : world) (p q : ptr) :
  p ≠ q → p ∉ dom (conns w) → q ∉ dom (conns w) →
  dom (conns w') = {[q]} ∪ ({[p]} ∪ dom (conns w)) →
  watchers w' = {[q]} ∪ ({[p]} ∪ watchers w) →
  live_connections w' = live_connections w + 2.
Proof.
  intros Hpq Hp Hq Hdom Hwat. unfold live_connections.
  rewrite Hdom, Hwat.
  generalize (dom (conns w)) (watchers w) Hp Hq. clear -Hpq. intros D W Hp Hq.
  assert (Heq : filter (λ x, x ∈ {[q]} ∪ ({[p]} ∪ W))
                  ({[q]} ∪ ({[p]} ∪ D))
                = ({[q]} ∪ {[p]}) ∪ filter (λ x, x ∈ W) D).
  { apply set_eq. intros x. split.
    - intros [HP Hx]%elem_of_filter. cbv beta in HP.
      apply elem_of_union.
      apply elem_of_union in Hx as [Hx|Hx]; [left; set_solver|].
      apply elem_of_union in Hx as [Hx|Hx]; [left; set_solver|].
      right. apply elem_of_filter. split; [|done].
      apply elem_of_union in HP as [HP|HP]; [set_solver|].
      apply elem_of_union in HP as [HP|HP]; [set_solver|done].
    - intros [Hx|[HP Hx]%elem_of_filter]%elem_of_union;
        apply elem_of_filter; cbv beta; split; set_solver. }
  rewrite Heq, size_union, size_union, !size_singleton; [lia| |].
  - set_solver.
  - intros x Hx [HP Hd]%elem_of_filter. set_solver.
Qed.

(** X12.  When every step succeeds, with two distinct fresh records, the
    accept adds exactly two running Connections: the first on the accepted
    socket, the second on its passive peer, both with a zero byte counter
    and this listener as their server; both sockets are open and attached,
    both watchers are started and every other record is as before. *)
Theorem accept_cb_starts_two (w : world) (passive : passive_context)
    (e : accept_env) (so : sock) (p q : ptr) :
  accepted e = Some so → attach_ok e = true → peer_attach_ok e = true →
  conn_alloc e = Some p → peerconn_alloc e = Some q →
  p ≠ q → conns w !! p = None → conns w !! q = None →
  ∃ w' l1 l2,
    accept_cb inet_ntoa_text w passive e = Returned w'
    ∧ conns w' !! p = Some (ConnectionContext l1 so passive 0)
    ∧ conns w' !! q = Some (ConnectionContext l2 (passive_peer e) passive 0)
    ∧ (∀ c, c ≠ p → c ≠ q → conns w' !! c = conns w !! c)
    ∧ watchers w' = {[q]} ∪ ({[p]} ∪ watchers w)
    ∧ sockets w' = {[passive_peer e]} ∪ ({[so]} ∪ sockets w)
    ∧ attached w' = {[passive_peer e]} ∪ ({[so]} ∪ attached w)
    ∧ passives w' = passives w
    ∧ live_connections w' = live_connections w + 2.
Proof.
  intros Ha Hok Hpok Hc Hpc Hpq Hp Hq.
  unfold accept_cb. rewrite Ha. unfold ev_uinet_attach.
  rewrite Hok, Hpok, Hc, Hpc. unfold start_side.
  destruct (format_label _ "SERVER" _ _ _ _) as [l1 m1].
  destruct (format_label _ "CLIENT" _ _ _ _) as [l2 m2].
  eexists _, l1, l2. split; [reflexivity|].
  split.
  { simpl. rewrite lookup_insert_ne by done. by rewrite lookup_insert_eq. }
  split; [simpl; by rewrite lookup_insert_eq|].
  split.
  { intros c Hcp Hcq. simpl. by rewrite !lookup_insert_ne. }
  do 4 (split; [reflexivity|]).
  apply (live_connections_two_more w _ p q Hpq).
  - by apply not_elem_of_dom.
  - by apply not_elem_of_dom.
  - simpl. rewrite !dom_insert_L. set_solver.
  - reflexivity.
Qed.

End AcceptorPaths.

Section AcceptorPathsWitnesses.
Import Env Acceptor Wire.

Lemma accept_cb_rolls_back_witness :
  ∃ w', accept_cb dotted_quad listening_world sample_passive
          (AcceptEnv (Some 5) true 6 false (Some 10) (Some 11)
             server_side client_side client_side server_side LeftToRight
             (Bufs "" ""))
        = Returned w'
    ∧ same_resources listening_world w' ∧ calls w' = calls listening_world.
Proof.
  apply (accept_cb_rolls_back dotted_quad listening_world sample_passive).
  - intros so [= <-]. unfold listening_world. cbn [sockets attached].
    split; apply not_elem_of_singleton; lia.
  - unfold listening_world. cbn [sockets attached passive_peer].
    apply not_elem_of_singleton. lia.
  - unfold listening_world. cbn [sockets attached passive_peer].
    apply not_elem_of_singleton. lia.
  - right. right. left. reflexivity.
Defined.

Lemma accept_cb_starts_two_witness :
  ∃ w' l1 l2,
    accept_cb dotted_quad listening_world sample_passive
      (sample_accept LeftToRight (Some 11)) = Returned w'
    ∧ conns w' !! 10 = Some (ConnectionContext l1 5 sample_passive 0)
    ∧ conns w' !! 11 = Some (ConnectionContext l2 6 sample_passive 0)
    ∧ (∀ c, c ≠ 10 → c ≠ 11 → conns w' !! c = conns listening_world !! c)
    ∧ watchers w' = {[11]} ∪ ({[10]} ∪ watchers listening_world)
    ∧ sockets w' = {[6]} ∪ ({[5]} ∪ sockets listening_world)
    ∧ attached w' = {[6]} ∪ ({[5]} ∪ attached listening_world)
    ∧ passives w' = passives listening_world
    ∧ live_connections w' = live_connections listening_world + 2.
Proof.
  apply (accept_cb_starts_two dotted_quad listening_world sample_passive
           (sample_accept LeftToRight (Some 11)) 5 10 11);
    try reflexivity.
  lia.
Defined.

(** X13.  For socket addresses made of bytes and a tag of at most six
    characters, the label fits its 64-byte field: it is at most 55
    characters long and [snprintf] stores it whole. *)
Theorem label_fits (tag : string) (sin1 sin2 : sockaddr_in)
    (ord : arg_order) (m : bufs) :
  String.length tag ≤ 6 → well_formed sin1 → well_formed sin2 →
  fst (format_label dotted_quad tag sin1 sin2 ord m)
  = label_text tag (dotted_quad (shown_address ord sin1 sin2)) sin1 sin2
  ∧ String.length (fst (format_label dotted_quad tag sin1 sin2 ord m)) ≤ 55.
Proof.
  intros Htag (Ha1 & Hh1 & Hl1) (Ha2 & Hh2 & Hl2).
  assert (Hquad : ∀ a, octets a → String.length (dotted_quad a) ≤ 15).
  { intros [[[a0 a1] a2] a3] (H0 & H1 & H2 & H3). unfold dotted_quad.
    rewrite !length_string_app. simpl.
    pose proof (length_dec_bound 2 a0 ltac:(simpl; lia)).
    pose proof (length_dec_bound 2 a1 ltac:(simpl; lia)).
    pose proof (length_dec_bound 2 a2 ltac:(simpl; lia)).
    pose proof (length_dec_bound 2 a3 ltac:(simpl; lia)). lia. }
  assert (Hport : ∀ sa, fst (sin_port sa) < 256 → snd (sin_port sa) < 256 →
                        String.length (dec (ntohs (sin_port sa))) ≤ 5).
  { intros sa Hh Hl. apply (length_dec_bound 4). unfold ntohs.
    replace (10 ^ 5) with (100 * 1000) by reflexivity. lia. }
  assert (Hshown : String.length (dotted_quad (shown_address ord sin1 sin2))
                   ≤ 15).
  { apply Hquad. by destruct ord. }
  assert (Hlen : String.length
                   (label_text tag (dotted_quad (shown_address ord sin1 sin2))
                      sin1 sin2) ≤ 55).
  { unfold label_text. rewrite !length_string_app. simpl.
    pose proof (Hport sin1 Hh1 Hl1). pose proof (Hport sin2 Hh2 Hl2). lia. }
  assert (Hfmt : fst (format_label dotted_quad tag sin1 sin2 ord m)
                 = label_text tag (dotted_quad (shown_address ord sin1 sin2))
                     sin1 sin2).
  { destruct ord; simpl; unfold snprintf; apply substring_all;
      simpl in Hlen |- *; lia. }
  split; [done|]. by rewrite Hfmt.
Qed.

Lemma label_fits_witness :
  fst (format_label dotted_quad "SERVER" server_side client_side LeftToRight
         (Bufs "" ""))
  = label_text "SERVER" (dotted_quad (10, 0, 0, 2)) server_side client_side
  ∧ String.length
      (fst (format_label dotted_quad "SERVER" server_side client_side
              LeftToRight (Bufs "" ""))) ≤ 55.
Proof.
  apply (label_fits "SERVER" server_side client_side LeftToRight
           (Bufs "" "")).
  - simpl. lia.
  - unfold well_formed, octets. simpl. lia.
  - unfold well_formed, octets. simpl. lia.
Defined.

End AcceptorPathsWitnesses.

(** ** Listener construction: the world it leaves *)

Section ListenerPaths.
Import Env Listener.

Variable uinet_inet_pton : string → option Z.
Variable e : listen_env.

Ltac unfold_steps :=
  unfold create_passive, body, parse_address, uinet_socreate, ev_uinet_attach,
    uinet_sosetnonblocking, uinet_sosetsockopt, malloc_passive,
    start_listen_watcher, checked, mbind, M_bind, mret, M_ret;
  simpl.

Ltac stopped :=
  rewrite <- ?app_assoc; simpl;
  eexists; split; [reflexivity|]; eexists; reflexivity.

(** The outcome of a construction, case by case: the world a listener comes
    with, or the settings that were applied before the step that failed. *)
Lemma create_passive_world_cases (w : world) (ifc : Config.interface_config)
    (cfg : Config.server_config) :
  let so := socreate_so e in
  match create_passive uinet_inet_pton e w ifc cfg with
  | (Some p, w') =>
      malloc_result e = Some p
      ∧ sockets w' = {[so]} ∪ sockets w
      ∧ attached w' = {[so]} ∪ attached w
      ∧ watchers w' = {[p]} ∪ watchers w
      ∧ passives w'
        = <[p := PassiveContext so (Config.verbose cfg)]> (passives w)
      ∧ conns w' = conns w
  | (None, w') =>
      ∃ applied,
        calls w' = calls w ++ applied
        ∧ applied `prefix_of`
            [MakePassive so]
            ++ (if (Config.promisc ifc =? 0)%Z then []
                else [MakePromiscuous so (Config.cdom ifc)])
            ++ [SetNonblocking so 1; SetSockOpt so TCP_NODELAY 1;
                SetSockOpt so TCP_KEEPINIT 5; SetSockOpt so TCP_KEEPIDLE 1;
                SetSockOpt so TCP_KEEPINTVL 1; SetSockOpt so TCP_KEEPCNT 5;
                SetSockOpt so TCP_REASSDL 2]
            ++ [Bind so (Config.listen_port cfg)]
  end.
Proof.
  intros so. unfold_steps.
  destruct (uinet_inet_pton (Config.listen_addr cfg)) as [addr|]; simpl;
    [|exists []; by rewrite app_nil_r; split; [|apply prefix_nil]].
  destruct (socreate_error e =? 0)%Z; simpl;
    [|exists []; by rewrite app_nil_r; split; [|apply prefix_nil]].
  destruct (attach_ok e); simpl;
    [|exists []; by rewrite app_nil_r; split; [|apply prefix_nil]].
  destruct (make_passive_error e =? 0)%Z; simpl;
    [|exists []; by rewrite app_nil_r; split; [|apply prefix_nil]].
  destruct (Config.promisc ifc =? 0)%Z; simpl;
    [|destruct (make_promiscuous_error e =? 0)%Z; simpl; [|stopped]].
  all: destruct (setsockopt_error e TCP_NODELAY =? 0)%Z; simpl; [|stopped].
  all: destruct (setsockopt_error e TCP_KEEPINIT =? 0)%Z; simpl; [|stopped].
  all: destruct (setsockopt_error e TCP_KEEPIDLE =? 0)%Z; simpl; [|stopped].
  all: destruct (setsockopt_error e TCP_KEEPINTVL =? 0)%Z; simpl; [|stopped].
  all: destruct (setsockopt_error e TCP_KEEPCNT =? 0)%Z; simpl; [|stopped].
  all: destruct (setsockopt_error e TCP_REASSDL =? 0)%Z; simpl; [|stopped].
  all: destruct (malloc_result e) as [p|]; simpl; [|stopped].
  all: destruct (bind_error e =? 0)%Z; simpl; [|stopped].
  all: destruct (listen_error e =? 0)%Z; simpl; [|stopped].
  all: by repeat split.
Qed.


(** X14.  A listener that [create_passive] returns is the record the
    allocator handed out, and comes with exactly this: the new socket open
    and attached to the loop, the record holding that socket and the
    configured verbosity, and the record's accept watcher started.  No
    Connection record is touched. *)
Theorem create_passive_installs_listener (w w' : world)
    (ifc : Config.interface_config) (cfg : Config.server_config) (p : ptr) :
  create_passive uinet_inet_pton e w ifc cfg = (Some p, w') →
  malloc_result e = Some p
  ∧ sockets w' = {[socreate_so e]} ∪ sockets w
  ∧ attached w' = {[socreate_so e]} ∪ attached w
  ∧ watchers w' = {[p]} ∪ watchers w
  ∧ passives w' !! p
    = Some (PassiveContext (socreate_so e) (Config.verbose cfg))
  ∧ (∀ p', p' ≠ p → passives w' !! p' = passives w !! p')
  ∧ conns w' = conns w.
Proof.
  intros Hrun. pose proof (create_passive_world_cases w ifc cfg) as Hcases.
  rewrite Hrun in Hcases.
  destruct Hcases as (Hm & Hs & Ha & Hw & Hp & Hc).
  rewrite Hp, lookup_insert_eq. repeat split; try done.
  intros p' Hne. by rewrite lookup_insert_ne.
Qed.

(** X15.  When [create_passive] returns NULL, the settings it has applied are
    an initial part of the sequence of a successful construction (passive,
    promiscuous when asked for, non-blocking, the six TCP options in source
    order, bind): it stops at the step that failed and applies nothing after
    it, and a failure before the socket exists applies nothing at all. *)
Theorem create_passive_stops_at_failure (w w' : world)
    (ifc : Config.interface_config) (cfg : Config.server_config) :
  create_passive uinet_inet_pton e w ifc cfg = (None, w') →
  ∃ applied,
    calls w' = calls w ++ applied
    ∧ applied `prefix_of`
        [MakePassive (socreate_so e)]
        ++ (if (Config.promisc ifc =? 0)%Z then []
            else [MakePromiscuous (socreate_so e) (Config.cdom ifc)])
        ++ [SetNonblocking (socreate_so e) 1;
            SetSockOpt (socreate_so e) TCP_NODELAY 1;
            SetSockOpt (socreate_so e) TCP_KEEPINIT 5;
            SetSockOpt (socreate_so e) TCP_KEEPIDLE 1;
            SetSockOpt (socreate_so e) TCP_KEEPINTVL 1;
            SetSockOpt (socreate_so e) TCP_KEEPCNT 5;
            SetSockOpt (socreate_so e) TCP_REASSDL 2]
        ++ [Bind (socreate_so e) (Config.listen_port cfg)].
Proof.
  intros Hrun. pose proof (create_passive_world_cases w ifc cfg) as Hcases.
  rewrite Hrun in Hcases. exact Hcases.
Qed.

End ListenerPaths.

Section ListenerPathsWitnesses.
Import Env Listener ListenerSamples.

Lemma create_passive_installs_listener_witness :
  malloc_result obliging = Some 9
  ∧ sockets (create_passive Config.sample_pton obliging empty_world
               (Config.sample_interface 1) sample_server).2
    = {[4]} ∪ sockets empty_world
  ∧ attached (create_passive Config.sample_pton obliging empty_world
                (Config.sample_interface 1) sample_server).2
    = {[4]} ∪ attached empty_world
  ∧ watchers (create_passive Config.sample_pton obliging empty_world
                (Config.sample_interface 1) sample_server).2
    = {[9]} ∪ watchers empty_world
  ∧ passives (create_passive Config.sample_pton obliging empty_world
                (Config.sample_interface 1) sample_server).2 !! 9
    = Some (PassiveContext 4 1)
  ∧ (∀ p', p' ≠ 9 →
       passives (create_passive Config.sample_pton obliging empty_world
                   (Config.sample_interface 1) sample_server).2 !! p'
       = passives empty_world !! p')
  ∧ conns (create_passive Config.sample_pton obliging empty_world
             (Config.sample_interface 1) sample_server).2
    = conns empty_world.
Proof.
  apply (create_passive_installs_listener Config.sample_pton obliging
           empty_world _ (Config.sample_interface 1) sample_server 9).
  vm_compute. reflexivity.
Defined.

Lemma create_passive_stops_at_failure_witness :
  ∃ applied,
    calls (create_passive Config.sample_pton keepidle_refused empty_world
             (Config.sample_interface 1) sample_server).2
    = calls empty_world ++ applied
    ∧ applied `prefix_of`
        [MakePassive 4; MakePromiscuous 4 1; SetNonblocking 4 1;
         SetSockOpt 4 TCP_NODELAY 1; SetSockOpt 4 TCP_KEEPINIT 5;
         SetSockOpt 4 TCP_KEEPIDLE 1; SetSockOpt 4 TCP_KEEPINTVL 1;
         SetSockOpt 4 TCP_KEEPCNT 5; SetSockOpt 4 TCP_REASSDL 2;
         Bind 4 80].
Proof.
  apply (create_passive_stops_at_failure Config.sample_pton keepidle_refused
           empty_world _ (Config.sample_interface 1) sample_server).
  vm_compute. reflexivity.
Defined.

End ListenerPathsWitnesses.

(** ** Validation and provisioning: what else they do *)

Section StartupPaths.
Import Config Startup Checks.

Variable uinet_inet_pton : string → option Z.
Variable UINET_INADDR_ANY : Z.
Variable alias_text : string → Z → string.

Local Abbreviation validate_server :=
  (validate_server uinet_inet_pton UINET_INADDR_ANY).
Local Abbreviation validate := (validate uinet_inet_pton UINET_INADDR_ANY).
Local Abbreviation create_interfaces := (create_interfaces alias_text).
Local Abbreviation create_passives := (create_passives uinet_inet_pton).
Local Abbreviation startup :=
  (startup uinet_inet_pton UINET_INADDR_ANY alias_text).
Local Abbreviation acceptable := (acceptable uinet_inet_pton).
Local Abbreviation wildcard := (wildcard uinet_inet_pton UINET_INADDR_ANY).
Local Abbreviation forces_promisc :=
  (forces_promisc uinet_inet_pton UINET_INADDR_ANY).
Local Abbreviation marked := (marked uinet_inet_pton UINET_INADDR_ANY).
Local Abbreviation forced := (forced uinet_inet_pton UINET_INADDR_ANY).

(** One iteration of the validation loop, in closed form. *)
Lemma validate_server_eq ifs s :
  acceptable s →
  validate_server ifs s
  = Some (if forces_promisc s then set_promisc (interface s) ifs else ifs,
          if wildcard s then with_addrany s else s).
Proof.
  intros [[Hlo Hhi] [a Ha]]. unfold Startup.validate_server.
  unfold Checks.forces_promisc, Checks.wildcard. rewrite Ha.
  destruct (Z.eqb_spec (listen_port s) (-1)) as [?|_]; [lia|].
  destruct (Z.ltb_spec (listen_port s) 0) as [?|_]; [lia|].
  destruct (Z.ltb_spec 65535 (listen_port s)) as [?|_]; [lia|]. simpl.
  destruct (Z.eqb_spec (listen_port s) 0) as [Hp|Hp];
    destruct (Z.eqb_spec a UINET_INADDR_ANY) as [->|Hne]; simpl.
  - rewrite bool_decide_eq_true_2 by done. f_equal. f_equal.
    unfold set_promisc. rewrite list_alter_alter_eq.
    apply list_alter_ext; [|done]. by intros [].
  - rewrite bool_decide_eq_false_2 by congruence. done.
  - rewrite bool_decide_eq_true_2 by done. done.
  - rewrite bool_decide_eq_false_2 by congruence. done.
Qed.

Lemma validate_server_None ifs s :
  ¬ acceptable s → validate_server ifs s = None.
Proof.
  intros Hna. unfold Startup.validate_server.
  destruct (Z.eqb_spec (listen_port s) (-1)) as [?|Hm]; [done|].
  destruct (Z.ltb_spec (listen_port s) 0) as [?|Hlo]; [done|].
  destruct (Z.ltb_spec 65535 (listen_port s)) as [?|Hhi]; [done|]. simpl.
  destruct (uinet_inet_pton (listen_addr s)) as [a|] eqn:Ha; [|done].
  destruct Hna. split; [lia|]. unfold is_Some. rewrite Ha. eauto.
Qed.

Lemma acceptable_dec s : acceptable s ∨ ¬ acceptable s.
Proof.
  unfold Checks.acceptable.
  destruct (decide (0 ≤ listen_port s ≤ 65535)%Z) as [Hp|Hp]; [|tauto].
  destruct (uinet_inet_pton (listen_addr s)) as [a|]; [left; eauto|].
  right. intros [_ [? ?]]. done.
Qed.

(** The validation loop in closed form. *)
Lemma validate_acceptable servers : ∀ ifs,
  Forall acceptable servers →
  validate ifs servers = Some (forced ifs servers, marked servers).
Proof.
  induction servers as [|s rest IH]; intros ifs Hall; [done|].
  apply Forall_cons in Hall as [Hs Hrest]. simpl.
  rewrite (validate_server_eq ifs s Hs), (IH _ Hrest). done.
Qed.

Lemma validate_Some_inv servers : ∀ ifs ifs' servers',
  validate ifs servers = Some (ifs', servers') →
  Forall acceptable servers
  ∧ ifs' = forced ifs servers ∧ servers' = marked servers.
Proof.
  induction servers as [|s rest IH]; intros ifs ifs' servers'; simpl.
  - intros [= <- <-]. by repeat split.
  - destruct (acceptable_dec s) as [Hs|Hs];
      [|by rewrite (validate_server_None ifs s Hs)].
    rewrite (validate_server_eq ifs s Hs).
    destruct (Startup.validate _ _ _ rest) as [[ifs2 rest1]|] eqn:Hrest;
      [|done].
    intros [= <- <-]. destruct (IH _ _ _ Hrest) as (Hall & -> & ->).
    split; [by constructor|]. by split.
Qed.

(** X16.  Validation passes exactly when every server has a listen port in
    [0, 65535] and a listen address the parser accepts; nothing about the
    interfaces can make it fail.  In particular a server left without a port
    (the initial -1) ends the program. *)
Theorem validate_passes_iff (ifs : list interface_config)
    (servers : list server_config) :
  is_Some (validate ifs servers) ↔ Forall acceptable servers.
Proof.
  split.
  - intros [[ifs' servers'] Hv]. by apply validate_Some_inv in Hv as [? _].
  - intros Hall. rewrite (validate_acceptable servers ifs Hall). eauto.
Qed.

(** X17.  When validation passes it changes two things and nothing else:
    each server whose address is the wildcard is marked address-any, the
    other servers are as they were; and going through the servers in order,
    the interface of each server with port 0 or the wildcard address gets
    its promiscuity flag set. *)
Theorem validate_closed_form (ifs ifs' : list interface_config)
    (servers servers' : list server_config) :
  validate ifs servers = Some (ifs', servers') →
  ifs' = forced ifs servers ∧ servers' = marked servers
  ∧ length ifs' = length ifs ∧ length servers' = length servers.
Proof.
  intros Hv. apply validate_Some_inv in Hv as (_ & -> & ->).
  split; [done|]. split; [done|]. split.
  - clear. revert ifs. induction servers as [|s rest IH]; intros ifs; [done|].
    simpl. rewrite IH. destruct (forces_promisc s); [|done].
    apply length_set_promisc.
  - apply length_map.
Qed.

(** How [forced] treats one interface. *)
Lemma forced_lookup servers : ∀ ifs k ifc',
  forced ifs servers !! k = Some ifc' →
  ∃ ifc, ifs !! k = Some ifc
    ∧ (ifc' = ifc
       ∨ (ifc' = with_promisc ifc
          ∧ ∃ s, s ∈ servers ∧ interface s = k ∧ forces_promisc s = true)).
Proof.
  induction servers as [|s rest IH]; intros ifs k ifc' Hk; simpl in Hk.
  - eauto.
  - destruct (IH _ _ _ Hk) as (ifc1 & Hifc1 & Hcase).
    assert (Hlater : (∃ s0, s0 ∈ rest ∧ interface s0 = k
                            ∧ forces_promisc s0 = true) →
                     ∃ s0, s0 ∈ s :: rest ∧ interface s0 = k
                           ∧ forces_promisc s0 = true).
    { intros (s0 & Hin & ?). exists s0. split; [by right|done]. }
    destruct (forces_promisc s) eqn:Hf.
    + unfold set_promisc in Hifc1.
      destruct (decide (interface s = k)) as [Heq|Hne].
      * rewrite Heq, list_lookup_alter_eq in Hifc1.
        destruct (ifs !! k) as [ifc|] eqn:Hifc; [|done].
        injection Hifc1 as <-. exists ifc. split; [done|]. right.
        assert (Hhere : ∃ s0, s0 ∈ s :: rest ∧ interface s0 = k
                              ∧ forces_promisc s0 = true).
        { exists s. split; [by left|done]. }
        destruct Hcase as [->|[-> _]]; [done|]. by destruct ifc.
      * rewrite list_lookup_alter_ne in Hifc1 by done.
        exists ifc1. split; [done|]. destruct Hcase as [?|[? ?]]; auto.
    + exists ifc1. split; [done|]. destruct Hcase as [?|[? ?]]; auto.
Qed.

(** X18.  Validation never clears a flag and never forces one without a
    reason: an interface comes out either as it went in, or with its
    promiscuity flag set and every other field as before, and the latter
    only when some server on that interface has port 0 or the wildcard
    address. *)
Theorem validate_forces_only_when_asked (ifs ifs' : list interface_config)
    (servers servers' : list server_config) (k : nat)
    (ifc' : interface_config) :
  validate ifs servers = Some (ifs', servers') →
  ifs' !! k = Some ifc' →
  ∃ ifc, ifs !! k = Some ifc
    ∧ (ifc' = ifc
       ∨ (ifc' = with_promisc ifc
          ∧ ∃ s, s ∈ servers ∧ interface s = k
              ∧ (listen_port s = 0%Z
                 ∨ uinet_inet_pton (listen_addr s) = Some UINET_INADDR_ANY))).
Proof.
  intros Hv Hk. apply validate_Some_inv in Hv as (_ & -> & _).
  destruct (forced_lookup _ _ _ _ Hk) as (ifc & Hifc & Hcase).
  exists ifc. split; [done|].
  destruct Hcase as [?|[-> (s & Hin & Hif & Hf)]]; [by left|].
  right. split; [done|]. exists s. split; [done|]. split; [done|].
  unfold Checks.forces_promisc, Checks.wildcard in Hf.
  apply orb_true_iff in Hf as [Hp|Hw].
  - left. by apply Z.eqb_eq.
  - right. by apply bool_decide_eq_true in Hw.
Qed.

Lemma set_promisc_comm j k ifs :
  set_promisc j (set_promisc k ifs) = set_promisc k (set_promisc j ifs).
Proof.
  unfold set_promisc. destruct (decide (j = k)) as [->|Hne]; [done|].
  by apply list_alter_alter_ne.
Qed.

Lemma set_promisc_idemp k ifs :
  set_promisc k (set_promisc k ifs) = set_promisc k ifs.
Proof.
  unfold set_promisc. rewrite list_alter_alter_eq.
  apply list_alter_ext; [|done]. by intros [].
Qed.

Lemma forced_set_promisc servers : ∀ ifs k,
  set_promisc k (forced ifs servers) = forced (set_promisc k ifs) servers.
Proof.
  induction servers as [|s rest IH]; intros ifs k; [done|]. simpl.
  rewrite IH. destruct (forces_promisc s); [|done].
  by rewrite set_promisc_comm.
Qed.

Lemma forced_idemp servers : ∀ ifs,
  forced (forced ifs servers) servers = forced ifs servers.
Proof.
  induction servers as [|s rest IH]; intros ifs; [done|]. simpl.
  destruct (forces_promisc s); [|apply IH].
  rewrite forced_set_promisc, set_promisc_idemp. apply IH.
Qed.

Lemma wildcard_with_addrany s : wildcard (with_addrany s) = wildcard s.
Proof. done. Qed.

Lemma forced_marked servers : ∀ ifs,
  forced ifs (marked servers) = forced ifs servers.
Proof.
  induction servers as [|s rest IH]; intros ifs; [done|]. simpl.
  assert (Hsame : forces_promisc (if wildcard s then with_addrany s else s)
                  = forces_promisc s
                  ∧ interface (if wildcard s then with_addrany s else s)
                    = interface s)
    by (by destruct (wildcard s)).
  destruct Hsame as [-> ->]. apply IH.
Qed.

(** X19.  Validation is idempotent: a configuration that has passed passes
    again and comes out unchanged. *)
Theorem validate_idempotent (ifs ifs' : list interface_config)
    (servers servers' : list server_config) :
  validate ifs servers = Some (ifs', servers') →
  validate ifs' servers' = Some (ifs', servers').
Proof.
  intros Hv. apply validate_Some_inv in Hv as (Hall & -> & ->).
  rewrite validate_acceptable.
  - rewrite forced_marked, forced_idemp. f_equal. f_equal.
    unfold Checks.marked. rewrite map_map. apply map_ext. intros s.
    destruct (wildcard s) eqn:Hw; [|by rewrite Hw].
    by rewrite wildcard_with_addrany, Hw.
  - unfold Checks.marked. apply Forall_map.
    eapply Forall_impl; [exact Hall|]. intros s Hs. simpl.
    by destruct (wildcard s).
Qed.

Lemma add_aliases_elem ifs servers : ∀ i0 i s,
  servers !! i = Some s → addrany s = 0%Z →
  ∃ al, AddAlias (i0 + i) al (listen_addr s) ∈ add_aliases ifs i0 servers.
Proof.
  induction servers as [|s0 rest IH]; intros i0 i s Hi Hz; [done|].
  simpl. destruct i as [|i]; simpl in Hi.
  - injection Hi as ->. rewrite Hz. simpl. rewrite Nat.add_0_r.
    eexists. by left.
  - destruct (IH (S i0) i s Hi Hz) as [al Hal].
    exists al. apply elem_of_app. right.
    by replace (i0 + S i) with (S i0 + i) by lia.
Qed.

(** X20.  A server that passes validation, was not marked address-any
    beforehand and whose address is not the wildcard gets its listen address
    added as an alias during provisioning, under its own index. *)
Theorem alias_added_for_addressed_server (loop_new : nat → option nat)
    (envs : nat → Listener.listen_env) (v : Z)
    (ifs : list interface_config) (servers : list server_config)
    (log : list startup_call) (w : Env.world) (i : nat) (s : server_config) :
  startup loop_new envs v ifs servers = inr (log, w) →
  servers !! i = Some s →
  addrany s = 0%Z →
  uinet_inet_pton (listen_addr s) ≠ Some UINET_INADDR_ANY →
  ∃ al, AddAlias i al (listen_addr s) ∈ log.
Proof.
  intros Hrun Hi Hz Hnw. unfold Startup.startup in Hrun.
  destruct (validate ifs servers) as [[ifs1 servers1]|] eqn:Hv; [|done].
  apply validate_Some_inv in Hv as (_ & _ & ->).
  destruct (create_interfaces loop_new 0 ifs1) as [created ifs2].
  destruct (Startup.create_passives _ _ _ _ _ _ _) as [[made servers2] w2].
  injection Hrun as <- _.
  assert (Hmarked : marked servers !! i = Some s).
  { unfold Checks.marked. rewrite list_lookup_fmap, Hi. simpl.
    unfold Checks.wildcard. by rewrite bool_decide_eq_false_2. }
  destruct (add_aliases_elem ifs2 _ 0 i s Hmarked Hz) as [al Hal].
  exists al. right. apply elem_of_app. right. apply elem_of_app. by left.
Qed.

(** X21.  Interface creation stops at the first interface whose event loop
    cannot be created: with loops available for the first [j] interfaces
    only, exactly [j + 1] interfaces are created (all of them when [j] is
    their number), and the entries after the failing one are left as they
    were: no alias, no loop. *)
Theorem create_interfaces_stops_at_loop_failure
    (loop_new : nat → option nat) (todo : list interface_config)
    (k0 j : nat) :
  j ≤ length todo →
  (∀ i, i < j → is_Some (loop_new (k0 + i))) →
  (j < length todo → loop_new (k0 + j) = None) →
  length (create_interfaces loop_new k0 todo).1 = min (S j) (length todo)
  ∧ length (create_interfaces loop_new k0 todo).2 = length todo
  ∧ ∀ i, j < i → (create_interfaces loop_new k0 todo).2 !! i = todo !! i.
Proof.
  revert k0 j. induction todo as [|ifc rest IH]; intros k0 j Hj Hok Hfail.
  - simpl. split; [lia|]. by split.
  - simpl in Hj. destruct j as [|j].
    + rewrite Nat.add_0_r in Hfail. simpl.
      rewrite Hfail by (simpl; lia). simpl.
      split; [done|]. split; [done|]. by intros [|i] Hi; [lia|].
    + simpl. destruct (Hok 0 ltac:(lia)) as [lp Hlp].
      rewrite Nat.add_0_r in Hlp. rewrite Hlp.
      destruct (IH (S k0) j) as (Hlen1 & Hlen2 & Hrest).
      * lia.
      * intros i Hi. replace (S k0 + i) with (k0 + S i) by lia.
        apply Hok. lia.
      * intros Hlt. replace (S k0 + j) with (k0 + S j) by lia.
        apply Hfail. simpl. lia.
      * destruct (Startup.create_interfaces _ loop_new (S k0) rest)
          as [cs rest'].
        simpl in *. split; [lia|]. split; [lia|].
        intros [|i] Hi; [lia|]. simpl. apply Hrest. lia.
Qed.

(** X22.  Listeners are constructed in server order up to the first
    construction that returns NULL, and no further: every server before the
    last construction has a listener, a construction that was not the last
    server's left its server without one, every constructed server carries
    the program's verbosity, and the servers after the last construction
    are as they were. *)
Theorem create_passives_stop_at_failure (envs : nat → Listener.listen_env)
    (ifs : list interface_config) (v : Z) (servers : list server_config)
    (i0 : nat) (w : Env.world) :
  Forall (λ s, is_Some (ifs !! interface s)) servers →
  let calls := (create_passives envs ifs v i0 servers w).1.1 in
  let servers' := (create_passives envs ifs v i0 servers w).1.2 in
  length servers' = length servers
  ∧ length calls ≤ length servers
  ∧ (servers ≠ [] → 1 ≤ length calls)
  ∧ (∀ i s', S i < length calls → servers' !! i = Some s' →
       is_Some (passive s'))
  ∧ (∀ i s', S i = length calls → length calls < length servers →
       servers' !! i = Some s' → passive s' = None)
  ∧ (∀ i s', i < length calls → servers' !! i = Some s' → verbose s' = v)
  ∧ (∀ i, length calls ≤ i → servers' !! i = servers !! i).
Proof.
  revert i0 w. induction servers as [|s rest IH]; intros i0 w Hall; simpl.
  - repeat split; try done; intros; lia.
  - apply Forall_cons in Hall as [[ifc Hifc] Hrest]. rewrite Hifc.
    destruct (Listener.create_passive _ _ _ _ _) as [[p|] w1].
    + specialize (IH (S i0) w1 Hrest).
      destruct (Startup.create_passives _ _ _ _ _ _ _) as [[cs rest'] w2].
      simpl in *.
      destruct IH as (Hlen & Hle & Hne & Hbefore & Hlast & Hverb & Hafter).
      split; [lia|]. split; [lia|]. split; [lia|].
      split; [|split; [|split]].
      * intros [|i] s' Hi Hs'; simpl in Hs'.
        -- injection Hs' as <-. simpl. eauto.
        -- apply (Hbefore i); [lia|done].
      * intros [|i] s' Hi Hlt Hs'; simpl in Hs'.
        -- destruct rest as [|s1 rest1]; [simpl in *; lia|].
           specialize (Hne ltac:(done)). lia.
        -- apply (Hlast i); [lia|lia|done].
      * intros [|i] s' Hi Hs'; simpl in Hs'.
        -- by injection Hs' as <-.
        -- apply (Hverb i); [lia|done].
      * intros [|i] Hi; [lia|]. simpl. apply Hafter. lia.
    + simpl. split; [done|]. split; [lia|]. split; [lia|].
      split; [intros; lia|]. split; [|split].
      * intros [|i] s' Hi _ Hs'; [|lia]. simpl in Hs'. by injection Hs' as <-.
      * intros [|i] s' Hi Hs'; [|lia]. simpl in Hs'. by injection Hs' as <-.
      * intros [|i] Hi; [lia|]. done.
Qed.

End StartupPaths.

Section StartupPathsWitnesses.
Import Config Startup Checks.

Lemma validate_closed_form_witness :
  [with_promisc (sample_interface 0)]
  = forced sample_pton 0 [sample_interface 0] two_servers
  ∧ [with_addrany (ServerConfig "0.0.0.0" 80 0 0 None 0);
     ServerConfig "10.0.0.1" 8080 0 0 None 0]
    = marked sample_pton 0 two_servers
  ∧ length [with_promisc (sample_interface 0)] = length [sample_interface 0]
  ∧ length [with_addrany (ServerConfig "0.0.0.0" 80 0 0 None 0);
            ServerConfig "10.0.0.1" 8080 0 0 None 0]
    = length two_servers.
Proof.
  apply (validate_closed_form sample_pton 0%Z [sample_interface 0] _
           two_servers _).
  reflexivity.
Defined.

Lemma validate_forces_only_when_asked_witness :
  ∃ ifc, [sample_interface 0] !! 0 = Some ifc
    ∧ (with_promisc (sample_interface 0) = ifc
       ∨ (with_promisc (sample_interface 0) = with_promisc ifc
          ∧ ∃ s, s ∈ two_servers ∧ interface s = 0
              ∧ (listen_port s = 0%Z
                 ∨ sample_pton (listen_addr s) = Some 0%Z))).
Proof.
  apply (validate_forces_only_when_asked sample_pton 0%Z [sample_interface 0]
           [with_promisc (sample_interface 0)] two_servers
           [with_addrany (ServerConfig "0.0.0.0" 80 0 0 None 0);
            ServerConfig "10.0.0.1" 8080 0 0 None 0] 0
           (with_promisc (sample_interface 0))).
  - reflexivity.
  - reflexivity.
Defined.

Lemma validate_idempotent_witness :
  validate sample_pton 0 [with_promisc (sample_interface 0)]
    [with_addrany (ServerConfig "0.0.0.0" 80 0 0 None 0);
     ServerConfig "10.0.0.1" 8080 0 0 None 0]
  = Some ([with_promisc (sample_interface 0)],
          [with_addrany (ServerConfig "0.0.0.0" 80 0 0 None 0);
           ServerConfig "10.0.0.1" 8080 0 0 None 0]).
Proof.
  apply (validate_idempotent sample_pton 0%Z [sample_interface 0] _
           two_servers _).
  reflexivity.
Defined.

Lemma alias_added_for_addressed_server_witness :
  ∃ al,
    AddAlias 1 al "10.0.0.1"
    ∈ log_of (startup sample_pton 0 sample_alias two_loops
                second_bind_refused 1 [sample_interface 0] two_servers).
Proof.
  apply (alias_added_for_addressed_server sample_pton 0%Z sample_alias
           two_loops second_bind_refused 1%Z [sample_interface 0] two_servers
           _ (world_of (startup sample_pton 0 sample_alias two_loops
                          second_bind_refused 1 [sample_interface 0]
                          two_servers))
           1 (ServerConfig "10.0.0.1" 8080 0 0 None 0)).
  - vm_compute. reflexivity.
  - reflexivity.
  - reflexivity.
  - vm_compute. discriminate.
Defined.

Lemma create_interfaces_stops_at_loop_failure_witness :
  length (create_interfaces sample_alias two_loops 0 three_interfaces).1
  = min 3 (length three_interfaces)
  ∧ length (create_interfaces sample_alias two_loops 0 three_interfaces).2
    = length three_interfaces
  ∧ ∀ i, 2 < i →
      (create_interfaces sample_alias two_loops 0 three_interfaces).2 !! i
      = three_interfaces !! i.
Proof.
  apply (create_interfaces_stops_at_loop_failure sample_alias two_loops
           three_interfaces 0 2).
  - simpl. lia.
  - intros [|[|i]] Hi; [by eexists|by eexists|lia].
  - intros _. reflexivity.
Defined.

Lemma create_passives_stop_at_failure_witness :
  let calls :=
    (create_passives sample_pton second_bind_refused [sample_interface 1] 1 0
       two_servers Env.empty_world).1.1 in
  let servers' :=
    (create_passives sample_pton second_bind_refused [sample_interface 1] 1 0
       two_servers Env.empty_world).1.2 in
  length servers' = length two_servers
  ∧ length calls ≤ length two_servers
  ∧ (two_servers ≠ [] → 1 ≤ length calls)
  ∧ (∀ i s', S i < length calls → servers' !! i = Some s' →
       is_Some (passive s'))
  ∧ (∀ i s', S i = length calls → length calls < length two_servers →
       servers' !! i = Some s' → passive s' = None)
  ∧ (∀ i s', i < length calls → servers' !! i = Some s' → verbose s' = 1%Z)
  ∧ (∀ i, length calls ≤ i → servers' !! i = two_servers !! i).
Proof.
  apply (create_passives_stop_at_failure sample_pton second_bind_refused
           [sample_interface 1] 1%Z two_servers 0 Env.empty_world).
  repeat constructor; by eexists.
Defined.

End StartupPathsWitnesses.

(** ** The option loop *)

Section OptionsFacts.
Import Config Options.

Variable strtoul : string → Z.
Variable UINET_IFTYPE_NETMAP : Z.
Variable UINET_IFTYPE_PCAP : Z.
Variable junk_interface : interface_config.
Variable junk_server : server_config.

Local Abbreviation handle_option :=
  (handle_option strtoul UINET_IFTYPE_NETMAP UINET_IFTYPE_PCAP).
Local Abbreviation parse_from :=
  (parse_from strtoul UINET_IFTYPE_NETMAP UINET_IFTYPE_PCAP).
Local Abbreviation parse_options :=
  (parse_options strtoul UINET_IFTYPE_NETMAP UINET_IFTYPE_PCAP
     junk_interface junk_server).
Local Abbreviation initial_state :=
  (initial_state UINET_IFTYPE_NETMAP junk_interface junk_server).

Lemma well_formed_initial : well_formed_state initial_state.
Proof.
  split; simpl; try done; try lia; try apply length_replicate.
Qed.

(** Updating one entry without touching a field leaves the field's
    properties alone. *)
Lemma lookup_alter_field {A B : Type} (f : A → A) (g : A → B) (l : list A)
    (i j : nat) (y : A) :
  alter f i l !! j = Some y → (∀ x, g (f x) = g x) →
  ∃ x, l !! j = Some x ∧ g y = g x.
Proof.
  intros Hy Hfg. revert Hy. rewrite list_lookup_alter.
  destruct (decide (i = j)) as [->|_].
  - destruct (l !! j) as [x|]; [|done]. intros [= <-]. eauto.
  - eauto.
Qed.

Lemma well_formed_step st t st' :
  handle_option st t = Parsed st' →
  well_formed_state st → well_formed_state st'.
Proof.
  intros Hstep [Hli Hls Hni Hns Hcnt Hown Hcdom].
  unfold MAX_INTERFACES, MAX_SERVERS in *.
  destruct t as [|a|a|a|a|a| | |c]; simpl in Hstep; try done.
  - unfold case_i in Hstep.
    destruct (Nat.eqb_spec MAX_INTERFACES (num_interfaces st)) as [?|Hne];
      [done|]. injection Hstep; intros <-. unfold MAX_INTERFACES in *.
    split; simpl; unfold MAX_INTERFACES, MAX_SERVERS in *;
      rewrite ?length_alter; try done; try lia.
    + intros i s Hi Hs. specialize (Hown i s Hi Hs). lia.
    + intros k ifc Hk Hifc. rewrite list_lookup_alter in Hifc.
      destruct (decide (num_interfaces st = k)) as [<-|Hnk].
      * destruct (interfaces st !! num_interfaces st); [|done].
        by injection Hifc as <-.
      * apply Hcdom; [lia|done].
  - unfold case_l in Hstep.
    destruct (Nat.eqb_spec 0 (num_interfaces st)) as [?|Hn0]; [done|].
    destruct (Nat.eqb_spec MAX_INTERFACES (num_interfaces st)); [done|].
    destruct (Nat.leb_spec MAX_SERVERS (num_servers st)) as [?|Hlt]; [done|].
    injection Hstep; intros <-. unfold MAX_SERVERS in *.
    split; simpl; unfold MAX_INTERFACES, MAX_SERVERS in *;
      rewrite ?length_alter; try done; try lia.
    intros i s Hi Hs. rewrite list_lookup_alter in Hs.
    destruct (decide (num_servers st = i)) as [<-|Hni'].
    + destruct (servers st !! num_servers st); [|done].
      injection Hs as <-. simpl. lia.
    + apply (Hown i); [lia|done].
  - unfold case_P in Hstep.
    destruct (Nat.eqb_spec 0 (num_interfaces st)) as [?|Hn0]; [done|].
    unfold case_p in Hstep.
    cbn [interface_server_count num_servers num_interfaces servers interfaces
         verbosity ifnetmap_count ifpcap_count] in Hstep.
    destruct (Nat.eqb_spec 0 (interface_server_count st)); [done|].
    destruct a as [text|]; [|done].
    destruct (_ || _); [done|]. injection Hstep; intros <-.
    split; simpl; unfold MAX_INTERFACES, MAX_SERVERS in *;
      rewrite ?length_alter; try done; try lia.
    + intros i s Hi Hs.
      destruct (lookup_alter_field _ interface _ _ _ _ Hs ltac:(done))
        as (x & Hx & ->). by apply (Hown i).
    + intros k ifc Hk Hifc.
      destruct (lookup_alter_field _ cdom _ _ _ _ Hifc ltac:(done))
        as (x & Hx & ->). by apply Hcdom.
  - unfold case_p in Hstep.
    destruct (Nat.eqb_spec 0 (interface_server_count st)); [done|].
    destruct (_ || _); [done|]. injection Hstep; intros <-.
    split; simpl; unfold MAX_INTERFACES, MAX_SERVERS in *;
      rewrite ?length_alter; try done; try lia.
    intros i s Hi Hs.
    destruct (lookup_alter_field _ interface _ _ _ _ Hs ltac:(done))
      as (x & Hx & ->). by apply (Hown i).
  - unfold case_t in Hstep.
    destruct (Nat.eqb_spec 0 (num_interfaces st)) as [?|Hn0]; [done|].
    destruct (String.eqb a "netmap");
      [|destruct (String.eqb a "pcap"); [|done]];
      injection Hstep; intros <-;
      (split; simpl; unfold MAX_INTERFACES, MAX_SERVERS in *;
       rewrite ?length_alter; try done; try lia);
      intros k ifc Hk Hifc;
      destruct (lookup_alter_field _ cdom _ _ _ _ Hifc ltac:(done))
        as (x & Hx & ->); by apply Hcdom.
  - injection Hstep; intros <-.
    by split; simpl; unfold MAX_INTERFACES, MAX_SERVERS in *.
Qed.

Lemma well_formed_parse tokens : ∀ st st',
  parse_from st tokens = Parsed st' →
  well_formed_state st → well_formed_state st'.
Proof.
  induction tokens as [|t rest IH]; intros st st'; simpl.
  - by intros [= <-].
  - destruct (handle_option st t) as [st1| |] eqn:Hstep; [|done|done].
    intros Hrest Hwf. apply (IH st1 st' Hrest).
    by apply (well_formed_step st t).
Qed.

(** X23.  Whatever options are given, a configuration that comes out of the
    option loop is consistent: at most 64 interfaces and 64 servers are
    recorded, every recorded server points at a recorded interface, and the
    capture domain of the [k]th interface is [k + 1], hence never 0 and
    never shared. *)
Theorem parse_options_consistent (tokens : list option_token)
    (st : parse_state) :
  parse_options tokens = Parsed st →
  num_interfaces st ≤ 64 ∧ num_servers st ≤ 64
  ∧ length (configured_interfaces st) = num_interfaces st
  ∧ length (configured_servers st) = num_servers st
  ∧ Forall (λ s, interface s < length (configured_interfaces st))
      (configured_servers st)
  ∧ ∀ k ifc, configured_interfaces st !! k = Some ifc →
             cdom ifc = (Z.of_nat k + 1)%Z.
Proof.
  intros Hparse.
  destruct (well_formed_parse tokens _ _ Hparse well_formed_initial)
    as [Hli Hls Hni Hns Hcnt Hown Hcdom].
  unfold MAX_INTERFACES, MAX_SERVERS in *.
  unfold configured_interfaces, configured_servers.
  rewrite !length_take.
  split; [done|]. split; [done|]. split; [lia|]. split; [lia|]. split.
  - apply Forall_lookup. intros i s Hs.
    apply lookup_take_Some in Hs as [Hs Hi].
    specialize (Hown i s Hi Hs). lia.
  - intros k ifc Hk. apply lookup_take_Some in Hk as [Hk Hlt].
    by apply Hcdom.
Qed.

Lemma take_S_alter {A : Type} (f : A → A) (l : list A) (n : nat) (x : A) :
  l !! n = Some x → take (S n) (alter f n l) = take n l ++ [f x].
Proof.
  intros Hx. rewrite (take_S_r _ _ (f x)); [by rewrite take_alter_ge|].
  by rewrite list_lookup_alter_eq, Hx.
Qed.

Lemma fmap_take_alter {A B : Type} (g : A → B) (f : A → A) (l : list A)
    (n i : nat) :
  (∀ x, g (f x) = g x) → g <$> take n (alter f i l) = g <$> take n l.
Proof.
  intros Hfg. rewrite !fmap_take. f_equal.
  rewrite (list_fmap_alter g f id); [by apply list_alter_id|].
  apply Forall_forall. intros x _. apply Hfg.
Qed.

(** What one option adds to the records. *)
Lemma recorded_step st t st' :
  handle_option st t = Parsed st' → well_formed_state st →
  ifname <$> configured_interfaces st'
  = (ifname <$> configured_interfaces st) ++ named_interfaces [t]
  ∧ listen_addr <$> configured_servers st'
    = (listen_addr <$> configured_servers st) ++ listen_addresses [t]
  ∧ interface <$> configured_servers st'
    = (interface <$> configured_servers st) ++ owners (num_interfaces st) [t]
  ∧ num_interfaces st' = num_interfaces st + length (named_interfaces [t])
  ∧ num_servers st' = num_servers st + length (listen_addresses [t]).
Proof.
  intros Hstep [Hli Hls Hni Hns Hcnt Hown Hcdom].
  unfold MAX_INTERFACES, MAX_SERVERS in *.
  unfold configured_interfaces, configured_servers.
  destruct t as [|a|a|a|a|a| | |c]; simpl in Hstep; try done.
  - unfold case_i in Hstep.
    destruct (Nat.eqb_spec MAX_INTERFACES (num_interfaces st)) as [?|Hne];
      [done|]. injection Hstep; intros <-. unfold MAX_INTERFACES in *.
    destruct (lookup_lt_is_Some_2 (interfaces st) (num_interfaces st))
      as [x Hx]; [lia|].
    cbn [interfaces servers num_interfaces num_servers named_interfaces
         listen_addresses owners omap list_omap length].
    rewrite !app_nil_r, Nat.add_0_r, Nat.add_1_r.
    by rewrite (take_S_alter _ _ _ x Hx), fmap_app.
  - unfold case_l in Hstep.
    destruct (Nat.eqb_spec 0 (num_interfaces st)) as [?|Hn0]; [done|].
    destruct (Nat.eqb_spec MAX_INTERFACES (num_interfaces st)); [done|].
    destruct (Nat.leb_spec MAX_SERVERS (num_servers st)) as [?|Hlt]; [done|].
    injection Hstep; intros <-. unfold MAX_SERVERS in *.
    destruct (lookup_lt_is_Some_2 (servers st) (num_servers st))
      as [x Hx]; [lia|].
    cbn [interfaces servers num_interfaces num_servers named_interfaces
         listen_addresses owners omap list_omap length].
    rewrite !app_nil_r, Nat.add_0_r, Nat.add_1_r.
    by rewrite (take_S_alter _ _ _ x Hx), !fmap_app.
  - unfold case_P in Hstep.
    destruct (Nat.eqb_spec 0 (num_interfaces st)) as [?|Hn0]; [done|].
    unfold case_p in Hstep.
    cbn [interface_server_count num_servers num_interfaces servers interfaces
         verbosity ifnetmap_count ifpcap_count] in Hstep.
    destruct (Nat.eqb_spec 0 (interface_server_count st)); [done|].
    destruct a as [text|]; [|done].
    destruct (_ || _); [done|]. injection Hstep; intros <-.
    cbn [interfaces servers num_interfaces num_servers named_interfaces
         listen_addresses owners omap list_omap length].
    rewrite !app_nil_r, !Nat.add_0_r.
    by rewrite !fmap_take_alter.
  - unfold case_p in Hstep.
    destruct (Nat.eqb_spec 0 (interface_server_count st)); [done|].
    destruct (_ || _); [done|]. injection Hstep; intros <-.
    cbn [interfaces servers num_interfaces num_servers named_interfaces
         listen_addresses owners omap list_omap length].
    rewrite !app_nil_r, !Nat.add_0_r.
    by rewrite !fmap_take_alter.
  - unfold case_t in Hstep.
    destruct (Nat.eqb_spec 0 (num_interfaces st)) as [?|Hn0]; [done|].
    destruct (String.eqb a "netmap");
      [|destruct (String.eqb a "pcap"); [|done]];
      injection Hstep; intros <-;
      cbn [interfaces servers num_interfaces num_servers named_interfaces
           listen_addresses owners omap list_omap length];
      rewrite !app_nil_r, !Nat.add_0_r;
      by rewrite !fmap_take_alter.
  - injection Hstep; intros <-.
    cbn [interfaces servers num_interfaces num_servers named_interfaces
         listen_addresses owners omap list_omap length].
    by rewrite !app_nil_r, !Nat.add_0_r.
Qed.

Lemma named_interfaces_cons t rest :
  named_interfaces (t :: rest) = named_interfaces [t] ++ named_interfaces rest.
Proof. apply (omap_app _ [t] rest). Qed.

Lemma listen_addresses_cons t rest :
  listen_addresses (t :: rest)
  = listen_addresses [t] ++ listen_addresses rest.
Proof. apply (omap_app _ [t] rest). Qed.

Lemma owners_cons seen t rest :
  owners seen (t :: rest)
  = owners seen [t] ++ owners (seen + length (named_interfaces [t])) rest.
Proof.
  destruct t; simpl; rewrite ?Nat.add_0_r, ?Nat.add_1_r; done.
Qed.

(** What a run of the loop adds to the records. *)
Lemma recorded_parse tokens : ∀ st st',
  parse_from st tokens = Parsed st' → well_formed_state st →
  ifname <$> configured_interfaces st'
  = (ifname <$> configured_interfaces st) ++ named_interfaces tokens
  ∧ listen_addr <$> configured_servers st'
    = (listen_addr <$> configured_servers st) ++ listen_addresses tokens
  ∧ interface <$> configured_servers st'
    = (interface <$> configured_servers st)
      ++ owners (num_interfaces st) tokens.
Proof.
  induction tokens as [|t rest IH]; intros st st'.
  - simpl. intros [= <-] _. by rewrite !app_nil_r.
  - cbn [Options.parse_from].
    destruct (handle_option st t) as [st1| |] eqn:Hstep; [|done|done].
    intros Hrest Hwf.
    destruct (recorded_step st t st1 Hstep Hwf) as (E1 & E2 & E3 & E4 & _).
    destruct (IH st1 st' Hrest (well_formed_step st t st1 Hstep Hwf))
      as (F1 & F2 & F3).
    rewrite F1, F2, F3, E1, E2, E3, E4.
    rewrite (named_interfaces_cons t rest), (listen_addresses_cons t rest),
      (owners_cons _ t rest).
    by rewrite !app_assoc.
Qed.

(** X24.  The option loop records the interface names and the listen
    addresses in the order in which [-i] and [-l] give them, and attaches
    every listen address to the interface named last before it. *)
Theorem parse_options_records_in_order (tokens : list option_token)
    (st : parse_state) :
  parse_options tokens = Parsed st →
  ifname <$> configured_interfaces st = named_interfaces tokens
  ∧ listen_addr <$> configured_servers st = listen_addresses tokens
  ∧ interface <$> configured_servers st = owners 0 tokens.
Proof.
  intros Hparse.
  destruct (recorded_parse tokens _ _ Hparse well_formed_initial)
    as (Hnames & Haddrs & Howners).
  rewrite Hnames, Haddrs, Howners.
  unfold configured_interfaces, configured_servers.
  cbn [Options.initial_state num_interfaces num_servers].
  by rewrite !take_0.
Qed.

(** One option without [-P], with room left in [servers[]], does not
    fault. *)
Lemma handle_option_no_fault st t :
  well_formed_state st →
  match t with Flag_P _ => False | _ => True end →
  num_servers st + length (listen_addresses [t]) ≤ MAX_SERVERS →
  handle_option st t ≠ Faulted.
Proof.
  intros [Hli Hls Hni Hns Hcnt Hown Hcdom] HP Hroom.
  unfold MAX_INTERFACES, MAX_SERVERS in *.
  destruct t as [|a|a|a|a|a| | |c]; simpl in *; try done.
  - unfold case_i. by destruct (_ =? _).
  - unfold case_l.
    destruct (0 =? _); [done|]. destruct (_ =? _); [done|].
    destruct (Nat.leb_spec MAX_SERVERS (num_servers st)) as [Hfull|_];
      [unfold MAX_SERVERS in Hfull; lia|done].
  - unfold case_p.
    destruct (Nat.eqb_spec 0 (interface_server_count st)) as [?|Hc]; [done|].
    destruct (Nat.eqb_spec 0 (num_servers st)) as [?|_]; [lia|].
    destruct (Nat.ltb_spec MAX_SERVERS (num_servers st)) as [Hfull|_];
      [unfold MAX_SERVERS in Hfull; lia|done].
  - unfold case_t. destruct (_ =? _); [done|].
    destruct (String.eqb _ _); [done|]. by destruct (String.eqb _ _).
Qed.

(** X25.  Without [-P], and with at most 64 [-l] options, the option loop
    stays within its two arrays and never passes NULL to [strtoul]: it ends
    with a configuration or with [return]. *)
Theorem parse_options_no_fault (tokens : list option_token) :
  no_flag_P tokens → length (listen_addresses tokens) ≤ 64 →
  parse_options tokens ≠ Faulted.
Proof.
  intros HP Hlen. unfold Options.parse_options.
  assert (Hgen : ∀ st, well_formed_state st →
            num_servers st + length (listen_addresses tokens) ≤ MAX_SERVERS →
            parse_from st tokens ≠ Faulted).
  { clear Hlen. induction tokens as [|t rest IH]; intros st Hwf Hroom; [done|].
    apply Forall_cons in HP as [Ht Hrest].
    rewrite (listen_addresses_cons t rest), length_app in Hroom.
    cbn [Options.parse_from].
    destruct (handle_option st t) as [st1| |] eqn:Hstep; [|done|].
    - apply (IH Hrest st1); [by apply (well_formed_step st t)|].
      destruct (recorded_step st t st1 Hstep Hwf) as (_ & _ & _ & _ & E5).
      lia.
    - exfalso. apply (handle_option_no_fault st t Hwf Ht); [lia|done]. }
  apply Hgen; [apply well_formed_initial|].
  unfold MAX_SERVERS. cbn [Options.initial_state num_servers]. lia.
Qed.

(** X26.  The test of [case 'l'] is on the number of interfaces: with one
    interface and more than 64 listen addresses, the loop writes past the end
    of [servers[]]. *)
Theorem listen_addresses_overflow (a : string) (addrs : list string) :
  64 < length addrs →
  parse_options (Flag_i a :: (Flag_l <$> addrs)) = Faulted.
Proof.
  intros Hlen. unfold Options.parse_options.
  cbn [Options.parse_from Options.handle_option].
  unfold case_i at 1.
  cbn [Options.initial_state num_interfaces MAX_INTERFACES Nat.eqb].
  match goal with |- parse_from ?st _ = _ => set (st1 := st) end.
  assert (Hgen : ∀ l st, num_interfaces st = 1 → num_servers st ≤ 64 →
            64 < num_servers st + length l →
            parse_from st (Flag_l <$> l) = Faulted).
  { clear. induction l as [|x l IH]; intros st Hni Hns Hover;
      [simpl in Hover; lia|].
    cbn [fmap list_fmap Options.parse_from Options.handle_option].
    unfold case_l. rewrite Hni. cbn [Nat.eqb MAX_INTERFACES].
    destruct (Nat.leb_spec MAX_SERVERS (num_servers st)) as [_|Hroom];
      [done|].
    unfold MAX_SERVERS in Hroom. apply IH; cbn [num_interfaces num_servers];
      simpl in Hover; lia. }
  apply Hgen; subst st1; simpl; lia.
Qed.

(** X27.  A [-P] that finds [optarg] NULL never leads to a configuration: for
    want of a [break] it goes on into [case 'p'], which returns 1 when the
    interface has no listen address yet and otherwise hands NULL to
    [strtoul]. *)
Theorem flag_P_needs_optarg (tokens : list option_token) (st : parse_state) :
  parse_options tokens = Parsed st → Flag_P None ∉ tokens.
Proof.
  unfold Options.parse_options. generalize initial_state.
  induction tokens as [|t rest IH]; intros st0;
    [intros _; apply not_elem_of_nil|].
  cbn [Options.parse_from].
  destruct (handle_option st0 t) as [st1| |] eqn:Hstep; [|done|done].
  intros Hrest. apply not_elem_of_cons. split; [|by apply (IH st1)].
  intros <-. simpl in Hstep. unfold case_P, case_p in Hstep.
  destruct (0 =? num_interfaces st0); [done|].
  cbn [interface_server_count] in Hstep.
  by destruct (0 =? interface_server_count st0).
Qed.

End OptionsFacts.

(** ** From the command line to provisioning *)

Section MainFacts.
Import Config Options Startup.

Variable strtoul : string → Z.
Variable UINET_IFTYPE_NETMAP : Z.
Variable UINET_IFTYPE_PCAP : Z.
Variable junk_interface : interface_config.
Variable junk_server : server_config.
Variable uinet_inet_pton : string → option Z.
Variable UINET_INADDR_ANY : Z.
Variable alias_text : string → Z → string.

Local Abbreviation main_startup :=
  (Options.main_startup strtoul UINET_IFTYPE_NETMAP UINET_IFTYPE_PCAP
     junk_interface junk_server uinet_inet_pton UINET_INADDR_ANY alias_text).

(** X28.  Every interface that [main] creates is created in capture domain
    0 when it is not promiscuous and in the domain of its own, its index
    plus one, when it is: validation changes promiscuity flags only, so the
    domain numbers given by the option loop are the ones that reach
    [uinet_ifcreate]. *)
Theorem main_capture_domains (loop_new : nat → option nat)
    (envs : nat → Listener.listen_env) (tokens : list option_token)
    (log : list startup_call) (w : Env.world) (k : nat)
    (ifc : interface_config) (dom : Z) :
  main_startup loop_new envs tokens = Some (inr (log, w)) →
  IfCreate k ifc dom ∈ log →
  k < 64 ∧ cdom ifc = (Z.of_nat k + 1)%Z
  ∧ dom = (if (promisc ifc =? 0)%Z then 0 else Z.of_nat k + 1)%Z.
Proof.
  unfold Options.main_startup.
  destruct (parse_options _ _ _ _ _ tokens) as [st| |] eqn:Hparse;
    [|done|done].
  destruct (num_interfaces st <? 1); [done|].
  destruct (num_servers st <? 1); [done|].
  intros [= Hstart] Hin.
  destruct (startup_log _ _ _ _ _ _ _ _ _ _ Hstart)
    as (ifs1 & servers1 & ifs2 & Hv & _ & Hlog).
  destruct (well_formed_parse _ _ _ tokens _ _ Hparse
              (well_formed_initial _ _ _))
    as [Hli Hls Hni Hns Hcnt Hown Hcdom].
  unfold MAX_INTERFACES in *.
  destruct (Hlog _ Hin) as [Hc|[Hc|[Hc|Hc]]].
  - done.
  - apply create_interfaces_calls in Hc
      as (k' & ifc' & orig & Heq & _ & Horig & Hp & Hc).
    injection Heq as -> -> ->. rewrite Nat.sub_0_r in Horig.
    apply validate_Some_inv in Hv as (_ & -> & _).
    apply forced_lookup in Horig as (ifc0 & Hifc0 & Hcase).
    apply lookup_take_Some in Hifc0 as [Hifc0 Hlt].
    assert (Hsame : cdom orig = cdom ifc0)
      by (by destruct Hcase as [->|[-> _]]).
    rewrite Hc, Hp, Hsame, (Hcdom k' ifc0 Hlt Hifc0).
    split; [lia|]. split; [done|]. done.
  - apply add_aliases_calls in Hc as (j & s & (al & ad & Heq) & _). done.
  - apply create_passives_calls in Hc as (j & ifc' & cfg & s & Heq & _).
    done.
Qed.

(** X29.  Before any call to the transport, [main] returns 1, or 0 after
    [-h]: no other exit status comes out of option parsing, the two count
    checks and validation. *)
Theorem main_exit_status (loop_new : nat → option nat)
    (envs : nat → Listener.listen_env) (tokens : list option_token)
    (status : Z) :
  main_startup loop_new envs tokens = Some (inl status) →
  status = 1%Z ∨ (status = 0%Z ∧ Flag_h ∈ tokens).
Proof.
  unfold Options.main_startup.
  assert (Hgen : ∀ st,
            parse_from strtoul UINET_IFTYPE_NETMAP UINET_IFTYPE_PCAP st tokens
            = Exited status →
            status = 1%Z ∨ (status = 0%Z ∧ Flag_h ∈ tokens)).
  { induction tokens as [|t rest IH]; intros st; [done|].
    cbn [Options.parse_from].
    destruct (handle_option _ _ _ st t) as [st1|s|] eqn:Hstep; [| |done].
    - intros Hrest. destruct (IH st1 Hrest) as [?|[? ?]]; [by left|].
      right. split; [done|]. apply elem_of_cons. by right.
    - intros [= ->].
      destruct t as [|a|a|a|a|a| | |c]; simpl in Hstep.
      + injection Hstep as <-. right. split; [done|].
        apply elem_of_cons. by left.
      + unfold case_i in Hstep. destruct (_ =? _); [|done].
        injection Hstep as <-. by left.
      + unfold case_l in Hstep.
        destruct (0 =? _); [injection Hstep as <-; by left|].
        destruct (_ =? _); [injection Hstep as <-; by left|].
        by destruct (_ <=? _).
      + unfold case_P, case_p in Hstep.
        destruct (0 =? _); [injection Hstep as <-; by left|].
        cbn [interface_server_count num_servers] in Hstep.
        destruct (0 =? _); [injection Hstep as <-; by left|].
        destruct a; [|done]. by destruct (_ || _).
      + unfold case_p in Hstep.
        destruct (0 =? _); [injection Hstep as <-; by left|].
        by destruct (_ || _).
      + unfold case_t in Hstep.
        destruct (0 =? _); [injection Hstep as <-; by left|].
        destruct (String.eqb _ _); [done|].
        destruct (String.eqb _ _); [done|].
        injection Hstep as <-. by left.
      + done.
      + injection Hstep as <-. by left.
      + injection Hstep as <-. by left. }
  unfold Options.parse_options.
  destruct (parse_from _ _ _ _ tokens) as [st|s|] eqn:Hparse.
  - destruct (num_interfaces st <? 1); [intros [= <-]; by left|].
    destruct (num_servers st <? 1); [intros [= <-]; by left|].
    unfold Startup.startup.
    destruct (validate _ _ _ _) as [[ifs1 servers1]|];
      [|intros [= <-]; by left].
    destruct (create_interfaces _ _ _ _) as [created ifs2].
    by destruct (create_passives _ _ _ _ _ _ _) as [[made servers2] w2].
  - intros [= <-]. by apply (Hgen _ Hparse).
  - done.
Qed.

End MainFacts.

Section OptionsWitnesses.
Import Config Options Startup.

Lemma parse_options_consistent_witness :
  num_interfaces sample_state ≤ 64 ∧ num_servers sample_state ≤ 64
  ∧ length (configured_interfaces sample_state) = num_interfaces sample_state
  ∧ length (configured_servers sample_state) = num_servers sample_state
  ∧ Forall (λ s, interface s < length (configured_interfaces sample_state))
      (configured_servers sample_state)
  ∧ ∀ k ifc, configured_interfaces sample_state !! k = Some ifc →
             cdom ifc = (Z.of_nat k + 1)%Z.
Proof.
  apply (parse_options_consistent sample_strtoul sample_netmap sample_pcap
           sample_junk_interface sample_junk_server sample_tokens
           sample_state).
  vm_compute. reflexivity.
Defined.

Lemma parse_options_records_in_order_witness :
  ifname <$> configured_interfaces sample_state = ["em0"; "em1"]
  ∧ listen_addr <$> configured_servers sample_state = ["10.0.0.1"; "0.0.0.0"]
  ∧ interface <$> configured_servers sample_state = [0; 1].
Proof.
  apply (parse_options_records_in_order sample_strtoul sample_netmap
           sample_pcap sample_junk_interface sample_junk_server sample_tokens
           sample_state).
  vm_compute. reflexivity.
Defined.

Lemma parse_options_no_fault_witness :
  parse_options sample_strtoul sample_netmap sample_pcap
    sample_junk_interface sample_junk_server sample_tokens ≠ Faulted.
Proof.
  apply (parse_options_no_fault sample_strtoul sample_netmap sample_pcap
           sample_junk_interface sample_junk_server sample_tokens).
  - unfold no_flag_P, sample_tokens. repeat constructor.
  - simpl. lia.
Defined.

Lemma listen_addresses_overflow_witness :
  parse_options sample_strtoul sample_netmap sample_pcap
    sample_junk_interface sample_junk_server
    (Flag_i "em0" :: (Flag_l <$> replicate 65 "10.0.0.1")) = Faulted.
Proof.
  apply (listen_addresses_overflow sample_strtoul sample_netmap sample_pcap
           sample_junk_interface sample_junk_server "em0"
           (replicate 65 "10.0.0.1")).
  rewrite length_replicate. lia.
Defined.

Lemma flag_P_needs_optarg_witness : Flag_P None ∉ sample_tokens.
Proof.
  apply (flag_P_needs_optarg sample_strtoul sample_netmap sample_pcap
           sample_junk_interface sample_junk_server sample_tokens
           sample_state).
  vm_compute. reflexivity.
Defined.

Lemma main_capture_domains_witness :
  1 < 64
  ∧ cdom (InterfaceConfig "em1" "pcap0" 2 None 1 2 0 "pcap")
    = (Z.of_nat 1 + 1)%Z
  ∧ 2%Z = (if (promisc (InterfaceConfig "em1" "pcap0" 2 None 1 2 0 "pcap")
               =? 0)%Z then 0 else Z.of_nat 1 + 1)%Z.
Proof.
  apply (main_capture_domains sample_strtoul sample_netmap sample_pcap
           sample_junk_interface sample_junk_server sample_pton 0%Z
           Checks.sample_alias Checks.two_loops (λ _, Listener.obliging)
           sample_tokens sample_log sample_final_world 1
           (InterfaceConfig "em1" "pcap0" 2 None 1 2 0 "pcap") 2%Z).
  - vm_compute. reflexivity.
  - apply (list_elem_of_lookup_2 _ 2). vm_compute. reflexivity.
Defined.

Lemma main_exit_status_witness :
  0%Z = 1%Z ∨ (0%Z = 0%Z ∧ Flag_h ∈ [Flag_v; Flag_h]).
Proof.
  apply (main_exit_status sample_strtoul sample_netmap sample_pcap
           sample_junk_interface sample_junk_server sample_pton 0%Z
           Checks.sample_alias Checks.two_loops (λ _, Listener.obliging)
           [Flag_v; Flag_h] 0%Z).
  reflexivity.
Defined.

End OptionsWitnesses.
